(** * front-vibecoding: the Category / Topic editor

    A shallow embedding of [src/types.ts], [src/App.tsx],
    [src/components/Category.tsx] and [src/components/Topic.tsx], and the
    properties of the topic collection they maintain.

    Layout:
    - [JS]        the three [String.prototype] methods the components call
                  ([trim], [toLowerCase], [includes]);
    - [types]     the [Topic] and [Category] records;
    - [TopicView] the [Topic] component: its two [useState] cells, the
                  controls it renders and the callbacks they fire;
    - [Store]     the [Category] component: its three [useState] cells, its
                  handlers and the derived [filteredTopics];
    - [App]       the seed category of [App.tsx] and worked scenarios;
    - [Todolist]  the todo list whose handlers the patterns guide quotes.

    The definitions come first.  The proofs follow: the string methods
    ([JSFacts]), each operation of the collection ([StoreFacts]), the view
    ([TopicFacts]), scenarios on the seed ([Scenarios]), how the operations
    compose ([StoreLaws], [FilterLaws], [RunLaws], [ViewLaws]) and the todo
    list ([TodolistFacts]). *)

From Stdlib Require Import Ascii String.
From stdpp Require Import base list strings.

(* ===================================================================== *)
(** * JavaScript string methods *)
(* ===================================================================== *)

(** A JavaScript string is a sequence of UTF-16 code units.  The model uses
    [string]: every [ascii] is one code unit in the range 0..255 (Basic
    Latin and Latin-1 Supplement).  On that range the three methods below
    are exactly ECMAScript's. *)
Module JS.

(** ECMAScript WhiteSpace and LineTerminator code units below 256:
    TAB, LF, VT, FF, CR, SP and NBSP. *)
Definition isWhiteSpace (c : ascii) : bool :=
  match Ascii.nat_of_ascii c with
  | 9 | 10 | 11 | 12 | 13 | 32 | 160 => true
  | _ => false
  end.

(** [String.prototype.trimStart] *)
Fixpoint trimStart (s : string) : string :=
  match s with
  | EmptyString => EmptyString
  | String c s' => if isWhiteSpace c then trimStart s' else s
  end.

(** [String.prototype.trimEnd] *)
Fixpoint trimEnd (s : string) : string :=
  match s with
  | EmptyString => EmptyString
  | String c s' =>
      match trimEnd s' with
      | EmptyString => if isWhiteSpace c then EmptyString else String c EmptyString
      | r => String c r
      end
  end.

(** [String.prototype.trim] *)
Definition trim (s : string) : string := trimEnd (trimStart s).

(** Simple lower-case mapping of one code unit below 256: [A-Z], and the
    Latin-1 capitals U+00C0..U+00DE except the multiplication sign U+00D7,
    move up by 32; everything else is its own lower case. *)
Definition toLowerCaseUnit (c : ascii) : ascii :=
  let n := Ascii.nat_of_ascii c in
  if ((65 <=? n) && (n <=? 90)) || ((192 <=? n) && (n <=? 222) && negb (n =? 215))
  then Ascii.ascii_of_nat (n + 32)
  else c.

(** [String.prototype.toLowerCase] *)
Fixpoint toLowerCase (s : string) : string :=
  match s with
  | EmptyString => EmptyString
  | String c s' => String (toLowerCaseUnit c) (toLowerCase s')
  end.

(** [String.prototype.includes]: is there a position of [s] at which
    [searchString] starts? *)
Fixpoint includes (s searchString : string) : bool :=
  String.prefix searchString s ||
  match s with
  | EmptyString => false
  | String _ s' => includes s' searchString
  end.

(** Vocabulary to say what [trim] removes and what it leaves. *)

(** Every code unit of [s] is white space. *)
Fixpoint allWhiteSpace (s : string) : bool :=
  match s with
  | EmptyString => true
  | String c s' => isWhiteSpace c && allWhiteSpace s'
  end.

(** The last code unit of [s], if any. *)
Fixpoint last (s : string) : option ascii :=
  match s with
  | EmptyString => None
  | String c EmptyString => Some c
  | String _ s' => last s'
  end.

Definition head (s : string) : option ascii :=
  match s with
  | EmptyString => None
  | String c _ => Some c
  end.

End JS.

(* ===================================================================== *)
(** * src/types.ts *)
(* ===================================================================== *)

Module types.

Record Topic := { id : string; name : string }.

Record Category := {
  category_id : string;
  category_name : string;
  topics : list Topic
}.

#[export] Instance Topic_eq_dec : EqDecision Topic.
Proof. solve_decision. Defined.

End types.

(* ===================================================================== *)
(** * src/components/Topic.tsx *)
(* ===================================================================== *)

(** One mounted [Topic] component.  Its props are the [topic] it shows and
    the two callbacks of the parent; its state is the pair of [useState]
    cells.  A click or keystroke is fired on a control; a control that the
    current render does not contain cannot be fired. *)
Module TopicView.

Record State := { isEditing : bool; name : string }.

(** [useState(false)] and [useState(topic.name)] at mount. *)
Definition init (topic : types.Topic) : State :=
  {| isEditing := false; name := types.name topic |}.

Definition Viewing (st : State) : Prop := isEditing st = false.
Definition Editing (st : State) : Prop := isEditing st = true.

(** The callbacks received as props, as the calls the component makes. *)
Inductive Call :=
  | onDelete (id : string)
  | onUpdate (id : string) (newName : string).

(** The controls of the returned [<li>]. *)
Inductive Control :=
  | NameInput (value : string)   (* onChange of the text input *)
  | SaveButton
  | EditButton
  | DeleteButton.

(** Which controls the render contains: the two ternaries on [isEditing],
    and the Delete button outside of them. *)
Definition rendered (st : State) (c : Control) : bool :=
  match c with
  | NameInput _ => isEditing st
  | SaveButton => isEditing st
  | EditButton => negb (isEditing st)
  | DeleteButton => true
  end.

Definition setIsEditing (b : bool) (st : State) : State :=
  {| isEditing := b; name := name st |}.

Definition setName (value : string) (st : State) : State :=
  {| isEditing := isEditing st; name := value |}.

Definition handleDelete (topic : types.Topic) (st : State) : State * list Call :=
  (st, [onDelete (types.id topic)]).

Definition handleUpdate (topic : types.Topic) (st : State) : State * list Call :=
  (setIsEditing false st, [onUpdate (types.id topic) (name st)]).

(** The handler bound to each control. *)
Definition handler (topic : types.Topic) (c : Control) (st : State) : State * list Call :=
  match c with
  | NameInput value => (setName value st, [])
  | SaveButton => handleUpdate topic st
  | EditButton => (setIsEditing true st, [])
  | DeleteButton => handleDelete topic st
  end.

(** The text the first ternary displays: the input's [value={name}] when
    editing, the [<span>{topic.name}</span>] otherwise. *)
Definition shown (topic : types.Topic) (st : State) : string :=
  if isEditing st then name st else types.name topic.

(** Firing a control: [None] when the control is not on screen. *)
Definition fire (topic : types.Topic) (st : State) (c : Control) : option (State * list Call) :=
  if rendered st c then Some (handler topic c st) else None.

(** One transition of the view, with the calls it makes on the parent. *)
Definition step (topic : types.Topic) (st : State) (c : Control) (calls : list Call) (st' : State) : Prop :=
  fire topic st c = Some (st', calls).

(** States reachable from the mount, the [topic] prop being free to change
    between events (the parent re-renders the view after a rename). *)
Inductive reachable : State → Prop :=
  | reach_init topic : reachable (init topic)
  | reach_step topic st c calls st' :
      reachable st → step topic st c calls st' → reachable st'.

End TopicView.

(* ===================================================================== *)
(** * src/components/Category.tsx *)
(* ===================================================================== *)

Module Store.
Import types.

(** The three [useState] cells of the component. *)
Record State := {
  topics : list Topic;
  newTopicName : string;
  filter : string
}.

(** [useState(category.topics)], [useState('')], [useState('')]. *)
Definition init (category : Category) : State :=
  {| topics := types.topics category; newTopicName := EmptyString; filter := EmptyString |}.

Definition setTopics (value : list Topic) (st : State) : State :=
  {| topics := value; newTopicName := newTopicName st; filter := filter st |}.

Definition setNewTopicName (value : string) (st : State) : State :=
  {| topics := topics st; newTopicName := value; filter := filter st |}.

Definition setFilter (value : string) (st : State) : State :=
  {| topics := topics st; newTopicName := newTopicName st; filter := value |}.

(** The component together with the uuid module it imports: [issued]
    counts the calls of [v1()] made so far. *)
Record World := { ui : State; issued : nat }.

Definition mount (category : Category) : World :=
  {| ui := init category; issued := 0 |}.

Definition lift (f : State → State) (w : World) : World :=
  {| ui := f (ui w); issued := issued w |}.

(** [{ ...topic, name: newName }] *)
Definition withName (topic : Topic) (newName : string) : Topic :=
  {| id := id topic; name := newName |}.

Definition handleDeleteTopic (id : string) (st : State) : State :=
  setTopics (base.filter (λ topic, types.id topic ≠ id) (topics st)) st.

(** The arrow function [handleUpdateTopic] maps over the collection:
    [(topic) => (topic.id === id ? { ...topic, name: newName } : topic)]. *)
Definition renamed (id newName : string) (topic : Topic) : Topic :=
  if decide (types.id topic = id) then withName topic newName else topic.

Definition handleUpdateTopic (id : string) (newName : string) (st : State) : State :=
  setTopics (renamed id newName <$> topics st) st.

(** The list rendered inside the [<ul>]; recomputed by every render. *)
Definition filteredTopics (st : State) : list Topic :=
  base.filter
    (λ topic, Is_true (JS.includes (JS.toLowerCase (name topic)) (JS.toLowerCase (filter st))))
    (topics st).

(** What the user can do to the component: type in either input, click
    "Add Topic", or make one of the rendered [Topic] views call back. *)
Inductive Event :=
  | ChangeNewTopicName (value : string)
  | ClickAddTopic
  | ChangeFilter (value : string)
  | FromTopic (call : TopicView.Call).

Section Uuid.

(** [v1 k] is the identifier returned by the [k]-th call of uuid's [v1()]. *)
Variable v1 : nat → string.

Definition handleCreateTopic (w : World) : World :=
  let st := ui w in
  if decide (JS.trim (newTopicName st) ≠ EmptyString) then
    let newTopic := {| id := v1 (issued w); name := JS.trim (newTopicName st) |} in
    {| ui := setNewTopicName EmptyString (setTopics (newTopic :: topics st) st);
       issued := S (issued w) |}
  else w.

(** [onDelete={handleDeleteTopic}] and [onUpdate={handleUpdateTopic}]. *)
Definition dispatch (call : TopicView.Call) : State → State :=
  match call with
  | TopicView.onDelete id => handleDeleteTopic id
  | TopicView.onUpdate id newName => handleUpdateTopic id newName
  end.

Definition handle (e : Event) (w : World) : World :=
  match e with
  | ChangeNewTopicName value => lift (setNewTopicName value) w
  | ClickAddTopic => handleCreateTopic w
  | ChangeFilter value => lift (setFilter value) w
  | FromTopic call => lift (dispatch call) w
  end.

(** The calls one view event makes, handled in order. *)
Definition dispatchAll (calls : list TopicView.Call) (st : State) : State :=
  foldl (λ st call, dispatch call st) st calls.

(** Events are handled one at a time, each against the state the previous
    one left. *)
Definition run (es : list Event) (w : World) : World :=
  foldl (λ w e, handle e w) w es.

(** The operations of the collection as a user performs them. *)
Definition create (rawName : string) : list Event :=
  [ChangeNewTopicName rawName; ClickAddTopic].

Definition delete (id : string) : list Event :=
  [FromTopic (TopicView.onDelete id)].

Definition rename (id newName : string) : list Event :=
  [FromTopic (TopicView.onUpdate id newName)].

End Uuid.

(** The identifiers of a collection, in order. *)
Definition ids (ts : list Topic) : list string := id <$> ts.

(** The contract of the identifier source: no identifier is issued twice. *)
Definition neverReissues (v1 : nat → string) : Prop :=
  ∀ i j, v1 i = v1 j → i = j.

(** From the [k]-th call on, the source stays clear of the identifiers in [ts]. *)
Definition avoids (v1 : nat → string) (k : nat) (ts : list Topic) : Prop :=
  ∀ j, k ≤ j → v1 j ∉ ids ts.

(** The invariant the operations keep: the identifiers of the collection
    are pairwise distinct, and none of them is still to be issued. *)
Definition distinctAndFresh (v1 : nat → string) (w : World) : Prop :=
  NoDup (ids (topics (ui w))) ∧ avoids v1 (issued w) (topics (ui w)).

(** Reading the collection for the topics named [newName] shows one topic,
    and its identifier is [id]. *)
Definition namedExactlyOnce (newName : string) (ts : list Topic) (id : string) : Prop :=
  base.filter (λ topic, name topic = newName) ts = [ {| id := id; name := newName |} ].

(** Case-insensitive containment, as a relation between a name and a query. *)
Definition containsIgnoringCase (name query : string) : Prop :=
  ∃ before after,
    JS.toLowerCase name = before +:+ JS.toLowerCase query +:+ after.

End Store.

(* ===================================================================== *)
(** * src/App.tsx *)
(* ===================================================================== *)

Module App.
Import types.

Definition initialCategory : Category :=
  {| category_id := "1";
     category_name := "Frontend";
     topics :=
       [ {| id := "1"; name := "HTML" |};
         {| id := "2"; name := "CSS" |};
         {| id := "3"; name := "JavaScript" |};
         {| id := "4"; name := "React" |} ] |}.

End App.

(* ===================================================================== *)
(** * Identifier sources used in the worked scenarios *)
(* ===================================================================== *)

Module Sources.

Fixpoint primes (k : nat) : string :=
  match k with
  | 0 => EmptyString
  | S k' => String "'" (primes k')
  end.

(** A source in the manner of uuid's [v1]: the [k]-th identifier is the
    letter u followed by [k] primes, so no two calls agree and none returns
    a seed identifier of [App.tsx]. *)
Definition uuid (k : nat) : string := String "u" (primes k).

(** A source that never repeats itself and yet starts at ["1"]: the [k]-th
    identifier is [k + 1] times the digit 1. *)
Fixpoint ones (k : nat) : string :=
  match k with
  | 0 => "1"
  | S k' => String "1" (ones k')
  end.

End Sources.

(* ===================================================================== *)
(** * The todo list quoted in the patterns guide *)
(* ===================================================================== *)

(** The guide quotes, handler by handler, the container component [App]
    and the presentational component [TodolistItem] of a todo list. *)
Module Todolist.

Record Task := { id : string; title : string; isDone : bool }.

Inductive FilterValues := all | active | completed.

#[export] Instance FilterValues_eq_dec : EqDecision FilterValues.
Proof. solve_decision. Defined.

#[export] Instance Task_eq_dec : EqDecision Task.
Proof. solve_decision. Defined.

(** The two [useState] cells of [App]. *)
Record AppState := { filter : FilterValues; tasks : list Task }.

(** The two [useState] cells of [TodolistItem]. *)
Record ItemState := { taskTitle : string; error : option string }.

(** Both components and the uuid module: [issued] counts the calls of
    [v1()] made so far. *)
Record World := { app : AppState; item : ItemState; issued : nat }.

Definition setFilter (value : FilterValues) (w : World) : World :=
  {| app := {| filter := value; tasks := tasks (app w) |}; item := item w; issued := issued w |}.

Definition setTasks (value : list Task) (w : World) : World :=
  {| app := {| filter := filter (app w); tasks := value |}; item := item w; issued := issued w |}.

Definition setTaskTitle (value : string) (w : World) : World :=
  {| app := app w; item := {| taskTitle := value; error := error (item w) |}; issued := issued w |}.

Definition setError (value : option string) (w : World) : World :=
  {| app := app w; item := {| taskTitle := taskTitle (item w); error := value |}; issued := issued w |}.

(** [{ ...task, isDone }] *)
Definition withIsDone (task : Task) (isDone : bool) : Task :=
  {| id := id task; title := title task; isDone := isDone |}.

Definition deleteTask (taskId : string) (w : World) : World :=
  let filteredTasks := base.filter (λ task, id task ≠ taskId) (tasks (app w)) in
  setTasks filteredTasks w.

Definition changeTaskStatus (taskId : string) (isDone : bool) (w : World) : World :=
  let newState :=
    (λ task, if decide (id task = taskId) then withIsDone task isDone else task)
      <$> tasks (app w) in
  setTasks newState w.

Definition changeFilter (filter : FilterValues) (w : World) : World :=
  setFilter filter w.

(** The derived list, computed in the component body by two [if]s. *)
Definition filteredTasks (st : AppState) : list Task :=
  let filteredTasks := tasks st in
  let filteredTasks :=
    if decide (filter st = active)
    then base.filter (λ task, ¬ Is_true (isDone task)) (tasks st)
    else filteredTasks in
  let filteredTasks :=
    if decide (filter st = completed)
    then base.filter (λ task, Is_true (isDone task)) (tasks st)
    else filteredTasks in
  filteredTasks.

(** What the user can do: type in the input, click "+", press a key in the
    input, click the "x" or the checkbox of a task, click a filter button.
    [Render] is one more evaluation of the body of [App]. *)
Inductive Event :=
  | ChangeTaskTitle (value : string)
  | ClickAdd
  | KeyDown (key : string)
  | ClickDelete (task : Task)
  | ChangeStatus (task : Task) (checked : bool)
  | ClickFilter (filter : FilterValues)
  | Render.

Section Uuid.

(** [v1 k] is the identifier returned by the [k]-th call of uuid's [v1()]. *)
Variable v1 : nat → string.

(** The array passed to [useState<Task[]>]: three calls of [v1()]. *)
Definition initialTasks (k : nat) : list Task :=
  [ {| id := v1 k; title := "HTML&CSS"; isDone := true |};
    {| id := v1 (S k); title := "JS"; isDone := true |};
    {| id := v1 (S (S k)); title := "ReactJS"; isDone := false |} ].

(** The first render, the uuid module having served [k] calls before. *)
Definition mount (k : nat) : World :=
  {| app := {| filter := all; tasks := initialTasks k |};
     item := {| taskTitle := EmptyString; error := None |};
     issued := S (S (S k)) |}.

(** A later render evaluates the argument of [useState] again: three more
    identifiers are issued, and React ignores the array. *)
Definition render (w : World) : World :=
  {| app := app w; item := item w; issued := S (S (S (issued w))) |}.

Definition createTask (title : string) (w : World) : World :=
  let newTask := {| id := v1 (issued w); title := title; isDone := false |} in
  let newTasks := newTask :: tasks (app w) in
  {| app := {| filter := filter (app w); tasks := newTasks |};
     item := item w;
     issued := S (issued w) |}.

Definition createTaskHandler (w : World) : World :=
  let trimmedTitle := JS.trim (taskTitle (item w)) in
  if decide (trimmedTitle ≠ EmptyString) then
    setTaskTitle EmptyString (createTask trimmedTitle w)
  else
    setError (Some "Title is required") w.

Definition changeTaskTitleHandler (value : string) (w : World) : World :=
  setError None (setTaskTitle value w).

Definition createTaskOnEnterHandler (key : string) (w : World) : World :=
  if decide (key = "Enter") then createTaskHandler w else w.

Definition deleteTaskHandler (task : Task) (w : World) : World :=
  deleteTask (id task) w.

Definition changeTaskStatusHandler (task : Task) (checked : bool) (w : World) : World :=
  let newStatusValue := checked in
  changeTaskStatus (id task) newStatusValue w.

Definition handle (e : Event) (w : World) : World :=
  match e with
  | ChangeTaskTitle value => changeTaskTitleHandler value w
  | ClickAdd => createTaskHandler w
  | KeyDown key => createTaskOnEnterHandler key w
  | ClickDelete task => deleteTaskHandler task w
  | ChangeStatus task checked => changeTaskStatusHandler task checked w
  | ClickFilter f => changeFilter f w
  | Render => render w
  end.

Definition run (es : list Event) (w : World) : World :=
  foldl (λ w e, handle e w) w es.

End Uuid.

Definition ids (ts : list Task) : list string := id <$> ts.

(** The invariant of the task list: pairwise distinct identifiers, none of
    which is still to be issued. *)
Definition distinctAndFresh (v1 : nat → string) (w : World) : Prop :=
  NoDup (ids (tasks (app w))) ∧ ∀ j, issued w ≤ j → v1 j ∉ ids (tasks (app w)).

(** The invariant of the input: an error is displayed only over a title
    that trims to nothing. *)
Definition errorOnlyOverBlank (st : ItemState) : Prop :=
  error st = None ∨
  (error st = Some "Title is required" ∧ JS.trim (taskTitle st) = EmptyString).

End Todolist.

(** Closed, decidable side conditions are settled by evaluation. *)
Ltac by_evaluation := apply (bool_decide_unpack _); vm_compute; exact I.

(* ===================================================================== *)
(** * Facts about the string methods *)
(* ===================================================================== *)

Module JSFacts.
Import JS.

(* stdpp seals [String.append] against [simpl]; these proofs go through it
   one code unit at a time. *)
#[local] Arguments String.append !_ _ / : simpl nomatch.

Lemma append_nil_r (s : string) : s +:+ EmptyString = s.
Proof. induction s as [|c s IH]; simpl; [done | by rewrite IH]. Qed.

(** [String.prefix] decides "starts with". *)
Lemma prefix_spec (q s : string) :
  String.prefix q s = true ↔ ∃ after, s = q +:+ after.
Proof.
  revert s. induction q as [|a q IH]; intros s; simpl.
  - split; [intros _; by exists s | intros _; by destruct s].
  - destruct s as [|b s]; simpl.
    + split; [done | intros [after H]; discriminate].
    + destruct (Ascii.ascii_dec a b) as [->|Hne].
      * rewrite IH. split; intros [after H]; exists after; congruence.
      * split; [done | intros [after H]; congruence].
Qed.

(** [includes] decides "occurs somewhere in". *)
Lemma includes_spec (s q : string) :
  includes s q = true ↔ ∃ before after, s = before +:+ q +:+ after.
Proof.
  induction s as [|c s IH].
  - cbn [includes]. rewrite orb_false_r, prefix_spec. split.
    + intros [after H]. by exists EmptyString, after.
    + intros [[|b before] [after H]]; [by exists after | discriminate].
  - cbn [includes]. rewrite orb_true_iff, prefix_spec, IH. split.
    + intros [[after H] | (before & after & H)].
      * by exists EmptyString, after.
      * exists (String c before), after. simpl. by rewrite H.
    + intros ([|b before] & after & H).
      * left. by exists after.
      * right. exists before, after. simpl in H. congruence.
Qed.

Lemma includes_empty (s : string) : includes s EmptyString = true.
Proof. apply includes_spec. by exists EmptyString, s. Qed.

(** [trimStart] drops a white-space prefix and stops at the first code
    unit that is not white space. *)
Lemma trimStart_spec (s : string) :
  ∃ l, s = l +:+ trimStart s ∧ allWhiteSpace l = true ∧
       ∀ c, head (trimStart s) = Some c → isWhiteSpace c = false.
Proof.
  induction s as [|c s (l & Hs & Hl & Hh)]; simpl.
  - by exists EmptyString.
  - destruct (isWhiteSpace c) eqn:Hc.
    + exists (String c l). simpl. rewrite Hc, Hl. split; [congruence | done].
    + exists EmptyString. simpl. split; [done | split; [done |]].
      intros c' [= <-]. done.
Qed.

Lemma trimEnd_nil_iff (s : string) :
  trimEnd s = EmptyString ↔ allWhiteSpace s = true.
Proof.
  induction s as [|c s IH]; simpl; [done |].
  destruct (trimEnd s) eqn:Ht, (isWhiteSpace c); simpl; split; try done.
  - intros _. by apply IH.
  - intros H. apply IH in H. discriminate.
Qed.

(** [trimEnd] drops a white-space suffix and stops at the last code unit
    that is not white space. *)
Lemma trimEnd_spec (s : string) :
  ∃ r, s = trimEnd s +:+ r ∧ allWhiteSpace r = true ∧
       ∀ c, last (trimEnd s) = Some c → isWhiteSpace c = false.
Proof.
  induction s as [|c s (r & Hs & Hr & Hl)]; simpl.
  - by exists EmptyString.
  - destruct (trimEnd s) as [|d t] eqn:Ht.
    + destruct (isWhiteSpace c) eqn:Hc.
      * exists (String c r). simpl in *. rewrite Hc, Hr. split; [congruence | done].
      * exists r. simpl in *. split; [congruence | split; [done |]].
        intros c' [= <-]. done.
    + exists r. split; [simpl in *; congruence | split; [done |]].
      intros c' H. apply Hl. exact H.
Qed.

Lemma trimEnd_head_inv (s : string) (c : ascii) :
  head (trimEnd s) = Some c → head s = Some c.
Proof.
  destruct s as [|d s]; simpl; [done |].
  destruct (trimEnd s); [destruct (isWhiteSpace d) |]; simpl; done.
Qed.

(** [trim s] is [s] without the white space around it: what is cut off on
    either side is white space, and what is left neither starts nor ends
    with white space. *)
Lemma trim_spec (s : string) :
  ∃ l r, s = l +:+ trim s +:+ r ∧
         allWhiteSpace l = true ∧ allWhiteSpace r = true ∧
         (∀ c, head (trim s) = Some c → isWhiteSpace c = false) ∧
         (∀ c, last (trim s) = Some c → isWhiteSpace c = false).
Proof.
  destruct (trimStart_spec s) as (l & Hs & Hl & Hh).
  destruct (trimEnd_spec (trimStart s)) as (r & Ht & Hr & Hlast).
  exists l, r. unfold trim. repeat split; try done.
  - by rewrite <- Ht.
  - intros c Hc. apply Hh. by apply trimEnd_head_inv.
Qed.

Lemma allWhiteSpace_app (s1 s2 : string) :
  allWhiteSpace (s1 +:+ s2) = allWhiteSpace s1 && allWhiteSpace s2.
Proof. induction s1 as [|c s1 IH]; simpl; [done | by rewrite IH, andb_assoc]. Qed.

(** The test of [handleCreateTopic]: the trimmed name is empty exactly when
    the raw name is white space only. *)
Lemma trim_nil_iff (s : string) :
  trim s = EmptyString ↔ allWhiteSpace s = true.
Proof.
  unfold trim. rewrite trimEnd_nil_iff.
  destruct (trimStart_spec s) as (l & Hs & Hl & Hh).
  rewrite Hs at 2. rewrite allWhiteSpace_app, Hl. done.
Qed.

(** A string that does not start with white space is its own [trimStart]. *)
Lemma trimStart_id (s : string) :
  (∀ c, head s = Some c → isWhiteSpace c = false) → trimStart s = s.
Proof.
  destruct s as [|c s]; simpl; [done |].
  intros H. by rewrite (H c).
Qed.

(** A string that does not end with white space is its own [trimEnd]. *)
Lemma trimEnd_id (s : string) :
  (∀ c, last s = Some c → isWhiteSpace c = false) → trimEnd s = s.
Proof.
  induction s as [|c s IH]; [done |].
  intros H. cbn [trimEnd]. destruct s as [|d s].
  - simpl. by rewrite (H c).
  - rewrite IH; [done |]. intros c' Hc'. apply H. exact Hc'.
Qed.

Lemma trim_idempotent (s : string) : trim (trim s) = trim s.
Proof.
  destruct (trim_spec s) as (l & r & _ & _ & _ & Hh & Hl).
  unfold trim at 1. rewrite trimStart_id by done. by apply trimEnd_id.
Qed.


Lemma toLowerCaseUnit_idempotent (c : ascii) :
  toLowerCaseUnit (toLowerCaseUnit c) = toLowerCaseUnit c.
Proof.
  destruct c as [[] [] [] [] [] [] [] []]; vm_compute; reflexivity.
Qed.

Lemma toLowerCase_idempotent (s : string) :
  toLowerCase (toLowerCase s) = toLowerCase s.
Proof.
  induction s as [|c s IH]; simpl; [done |].
  by rewrite toLowerCaseUnit_idempotent, IH.
Qed.


End JSFacts.

(* ===================================================================== *)
(** * The collection operations of the Category component *)
(* ===================================================================== *)

Module StoreFacts.
Import types Store.

Lemma setTopics_same (st : State) : setTopics (topics st) st = st.
Proof. by destruct st. Qed.

(** ** delete *)

Lemma delete_absent (i : string) (ts : list Topic) :
  i ∉ ids ts → base.filter (λ topic, id topic ≠ i) ts = ts.
Proof.
  induction ts as [|t ts IH]; intros Hi; [done |].
  unfold ids in Hi. rewrite fmap_cons, not_elem_of_cons in Hi.
  destruct Hi as [Hne Hi].
  rewrite filter_cons_True by done. f_equal. by apply IH.
Qed.

(** C2. [handleDeleteTopic id] replaces the collection with the topics
    whose id differs from [id]: the result is the filter of the old
    collection, so it is a subsequence of it (relative order kept), it holds
    exactly the topics with another id, and the other two cells are not
    touched.  When no topic has that id the state is unchanged; the handler
    is a total function, so there is no error to signal. *)
Theorem handleDeleteTopic_spec (i : string) (st : State) :
  topics (handleDeleteTopic i st) = base.filter (λ topic, id topic ≠ i) (topics st) ∧
  topics (handleDeleteTopic i st) `sublist_of` topics st ∧
  (∀ t, t ∈ topics (handleDeleteTopic i st) ↔ t ∈ topics st ∧ id t ≠ i) ∧
  newTopicName (handleDeleteTopic i st) = newTopicName st ∧
  filter (handleDeleteTopic i st) = filter st ∧
  (i ∉ ids (topics st) → handleDeleteTopic i st = st).
Proof.
  unfold handleDeleteTopic. cbn [topics newTopicName filter setTopics].
  split_and!; try done.
  - apply sublist_filter.
  - intros t. rewrite list_elem_of_filter. tauto.
  - intros Hi. rewrite delete_absent by done. apply setTopics_same.
Qed.

(** ** rename *)

Lemma renamed_id (i newName : string) (topic : Topic) :
  id (renamed i newName topic) = id topic.
Proof. unfold renamed. by case_decide. Qed.

Lemma rename_ids (i newName : string) (ts : list Topic) :
  ids (renamed i newName <$> ts) = ids ts.
Proof.
  unfold ids. rewrite <- list_fmap_compose. apply list_fmap_ext.
  intros k t _. apply renamed_id.
Qed.

Lemma rename_absent (i newName : string) (ts : list Topic) :
  i ∉ ids ts → renamed i newName <$> ts = ts.
Proof.
  intros Hi. rewrite <- (list_fmap_id ts) at 2. apply list_fmap_ext.
  intros k t Hk. unfold renamed. case_decide as Heq; [|done].
  destruct Hi. subst i. apply list_elem_of_fmap. exists t.
  split; [done |]. by eapply list_elem_of_lookup_2.
Qed.

(** C3. [handleUpdateTopic id newName] replaces the collection position by
    position: a topic whose id is [id] becomes the topic with the same id
    and the name [newName], taken as it is (nothing trims it or tests it for
    emptiness), and every other topic stays.  When no topic has that id the
    state is unchanged. *)
Theorem handleUpdateTopic_spec (i newName : string) (st : State) :
  length (topics (handleUpdateTopic i newName st)) = length (topics st) ∧
  (∀ k t, topics st !! k = Some t →
     topics (handleUpdateTopic i newName st) !! k
     = Some (if decide (id t = i) then {| id := id t; name := newName |} else t)) ∧
  (∀ k, topics st !! k = None → topics (handleUpdateTopic i newName st) !! k = None) ∧
  newTopicName (handleUpdateTopic i newName st) = newTopicName st ∧
  filter (handleUpdateTopic i newName st) = filter st ∧
  (i ∉ ids (topics st) → handleUpdateTopic i newName st = st).
Proof.
  unfold handleUpdateTopic. cbn [topics newTopicName filter setTopics].
  split_and!; try done.
  - apply length_fmap.
  - intros k t Hk. rewrite list_lookup_fmap, Hk. done.
  - intros k Hk. rewrite list_lookup_fmap, Hk. done.
  - intros Hi. rewrite rename_absent by done.
    apply setTopics_same.
Qed.

(** C10. [handleUpdateTopic] keeps the length of the collection and the
    sequence of its identifiers; position by position, the topic after the
    call has the id of the topic before it, and it is that very topic unless
    its id is the one renamed. *)
Theorem handleUpdateTopic_frame (i newName : string) (st : State) :
  length (topics (handleUpdateTopic i newName st)) = length (topics st) ∧
  ids (topics (handleUpdateTopic i newName st)) = ids (topics st) ∧
  (∀ k t t', topics st !! k = Some t →
     topics (handleUpdateTopic i newName st) !! k = Some t' →
     id t' = id t ∧ (id t ≠ i → t' = t) ∧ (t' ≠ t → id t = i ∧ name t' = newName)).
Proof.
  unfold handleUpdateTopic. cbn [topics setTopics].
  split_and!.
  - apply length_fmap.
  - apply rename_ids.
  - intros k t t' Hk Hk'. rewrite list_lookup_fmap, Hk in Hk'.
    injection Hk' as <-. unfold renamed. case_decide as Heq; simpl.
    + split_and!; [done | done | intros _; done].
    + split_and!; done.
Qed.

(** ** filter *)

Lemma includes_containsIgnoringCase (name query : string) :
  Is_true (JS.includes (JS.toLowerCase name) (JS.toLowerCase query))
  ↔ containsIgnoringCase name query.
Proof. rewrite Is_true_true. apply JSFacts.includes_spec. Qed.

Lemma filteredTopics_elem (st : State) (t : Topic) :
  t ∈ filteredTopics st ↔ t ∈ topics st ∧ containsIgnoringCase (name t) (filter st).
Proof.
  unfold filteredTopics.
  rewrite list_elem_of_filter, includes_containsIgnoringCase. tauto.
Qed.

Lemma filter_all {A} (P : A → Prop) `{!∀ x, Decision (P x)} (l : list A) :
  (∀ x, x ∈ l → P x) → base.filter P l = l.
Proof.
  induction l as [|x l IH]; intros Hall; [done |].
  rewrite filter_cons_True by (apply Hall; left).
  f_equal. apply IH. intros y Hy. apply Hall. by right.
Qed.

(** C4. [filteredTopics] is a function of the collection and the query
    alone.  It is the filter of the collection by "the lower-cased name
    contains the lower-cased query", whichever way that relation is decided:
    a subsequence of the collection (relative order kept) holding exactly the
    topics in that relation.  With the empty query it is the whole
    collection.  Typing a query changes the [filter] cell only, never the
    collection. *)
Theorem filteredTopics_spec (st : State)
    `{!∀ t : Topic, Decision (containsIgnoringCase (name t) (filter st))} :
  filteredTopics st
    = base.filter (λ t, containsIgnoringCase (name t) (filter st)) (topics st) ∧
  filteredTopics st `sublist_of` topics st ∧
  (∀ t, t ∈ filteredTopics st
        ↔ t ∈ topics st ∧ containsIgnoringCase (name t) (filter st)) ∧
  (filter st = EmptyString → filteredTopics st = topics st) ∧
  (∀ st', topics st' = topics st → filter st' = filter st →
          filteredTopics st' = filteredTopics st) ∧
  (∀ query, topics (setFilter query st) = topics st ∧
            newTopicName (setFilter query st) = newTopicName st ∧
            filter (setFilter query st) = query).
Proof.
  split_and!.
  - unfold filteredTopics. apply list_filter_iff.
    intros t. apply includes_containsIgnoringCase.
  - apply sublist_filter.
  - apply filteredTopics_elem.
  - intros Hq. unfold filteredTopics. rewrite Hq. apply filter_all.
    intros t _. cbn [JS.toLowerCase]. rewrite JSFacts.includes_empty. done.
  - intros st' Ht Hf. unfold filteredTopics. by rewrite Ht, Hf.
  - done.
Qed.

(** ** create *)

Section Uuid.
Variable v1 : nat → string.

Lemma handleCreateTopic_rejected (w : World) :
  JS.trim (newTopicName (ui w)) = EmptyString → handleCreateTopic v1 w = w.
Proof. intros H. unfold handleCreateTopic. cbn zeta. by rewrite decide_False by tauto. Qed.

Lemma handleCreateTopic_accepted (w : World) :
  JS.trim (newTopicName (ui w)) ≠ EmptyString →
  handleCreateTopic v1 w =
    {| ui := {| topics := {| id := v1 (issued w); name := JS.trim (newTopicName (ui w)) |}
                            :: topics (ui w);
                newTopicName := EmptyString;
                filter := filter (ui w) |};
       issued := S (issued w) |}.
Proof. intros H. unfold handleCreateTopic. cbn zeta. by rewrite decide_True. Qed.

(** C1. Typing [rawName] and clicking "Add Topic": when [rawName] trims to
    the empty string the collection (and the count of issued identifiers)
    is as before; otherwise the new collection is the old one with one
    topic put in front, whose id is the next identifier of the source and
    whose name is the trimmed [rawName].  The handlers are total functions:
    neither case signals an error. *)
Theorem create_spec (rawName : string) (w : World) :
  (JS.trim rawName = EmptyString →
     topics (ui (run v1 (create rawName) w)) = topics (ui w) ∧
     issued (run v1 (create rawName) w) = issued w) ∧
  (JS.trim rawName ≠ EmptyString →
     topics (ui (run v1 (create rawName) w))
       = {| id := v1 (issued w); name := JS.trim rawName |} :: topics (ui w) ∧
     issued (run v1 (create rawName) w) = S (issued w)).
Proof.
  unfold run, create. cbn [foldl handle]. split; intros H.
  - rewrite handleCreateTopic_rejected by done. done.
  - rewrite handleCreateTopic_accepted by done. done.
Qed.

(** C9. Clicking "Add Topic" while the input buffer trims to the empty
    string changes nothing at all: the buffer keeps its text and the
    collection its topics.  Otherwise the buffer becomes the empty string
    and the collection is one topic longer.  So a call that changes the
    buffer has cleared it and has added a topic. *)
Theorem handleCreateTopic_buffer (w : World) :
  (JS.trim (newTopicName (ui w)) = EmptyString → handleCreateTopic v1 w = w) ∧
  (JS.trim (newTopicName (ui w)) ≠ EmptyString →
     newTopicName (ui (handleCreateTopic v1 w)) = EmptyString ∧
     length (topics (ui (handleCreateTopic v1 w))) = S (length (topics (ui w)))) ∧
  (newTopicName (ui (handleCreateTopic v1 w)) ≠ newTopicName (ui w) →
     newTopicName (ui (handleCreateTopic v1 w)) = EmptyString ∧
     length (topics (ui (handleCreateTopic v1 w))) = S (length (topics (ui w)))).
Proof.
  assert (Hacc : JS.trim (newTopicName (ui w)) ≠ EmptyString →
     newTopicName (ui (handleCreateTopic v1 w)) = EmptyString ∧
     length (topics (ui (handleCreateTopic v1 w))) = S (length (topics (ui w)))).
  { intros H. rewrite handleCreateTopic_accepted by done. done. }
  split_and!; [apply handleCreateTopic_rejected | exact Hacc |].
  intros Hchg. apply Hacc. intros Hrej.
  apply Hchg. by rewrite handleCreateTopic_rejected.
Qed.

(** ** Names that are not empty *)

(** Creation never commits an empty name: no event other than a rename to
    the empty string brings an empty name into the collection. *)
Lemma handle_names_nonempty (e : Event) (w : World) :
  (∀ i, e ≠ FromTopic (TopicView.onUpdate i EmptyString)) →
  Forall (λ t, name t ≠ EmptyString) (topics (ui w)) →
  Forall (λ t, name t ≠ EmptyString) (topics (ui (handle v1 e w))).
Proof.
  intros He Hw. destruct e as [value | | value | [i | i newName]]; cbn [handle lift ui dispatch].
  - exact Hw.
  - destruct (decide (JS.trim (newTopicName (ui w)) = EmptyString)) as [Hrej | Hacc].
    + by rewrite handleCreateTopic_rejected.
    + rewrite handleCreateTopic_accepted by done. cbn [ui topics].
      by apply Forall_cons.
  - exact Hw.
  - unfold handleDeleteTopic. cbn [topics setTopics].
    rewrite Forall_forall in Hw |- *. intros t Ht.
    apply list_elem_of_filter in Ht as [_ Ht]. by apply Hw.
  - unfold handleUpdateTopic. cbn [topics setTopics].
    apply Forall_fmap. eapply Forall_impl; [exact Hw |].
    intros t Ht. unfold renamed, compose. case_decide; [| done].
    cbn. intros ->. by apply (He i).
Qed.

(** ** Distinct identifiers *)

Lemma ids_filter_subseteq (P : Topic → Prop) `{!∀ t, Decision (P t)} (ts : list Topic) (x : string) :
  x ∈ ids (base.filter P ts) → x ∈ ids ts.
Proof.
  unfold ids. rewrite !list_elem_of_fmap. intros (t & -> & Ht).
  exists t. split; [done |]. apply list_elem_of_filter in Ht. tauto.
Qed.

Lemma ids_filter_NoDup (P : Topic → Prop) `{!∀ t, Decision (P t)} (ts : list Topic) :
  NoDup (ids ts) → NoDup (ids (base.filter P ts)).
Proof.
  induction ts as [|t ts IH]; [done |].
  unfold ids in *. rewrite fmap_cons, NoDup_cons. intros [Ht Hts].
  destruct (decide (P t)) as [HP | HP].
  - rewrite filter_cons_True by done. rewrite fmap_cons, NoDup_cons.
    split; [| by apply IH]. intros Hin. apply Ht.
    by apply (ids_filter_subseteq P).
  - rewrite filter_cons_False by done. by apply IH.
Qed.

Lemma dispatch_distinctAndFresh (call : TopicView.Call) (w : World) :
  distinctAndFresh v1 w → distinctAndFresh v1 (lift (dispatch call) w).
Proof.
  intros [Hnd Hav]. destruct call as [i | i newName];
    unfold distinctAndFresh, avoids, lift, dispatch; cbn [ui issued].
  - unfold handleDeleteTopic. cbn [topics setTopics]. split.
    + by apply ids_filter_NoDup.
    + intros j Hj Hin. apply (Hav j Hj). by eapply ids_filter_subseteq.
  - unfold handleUpdateTopic. cbn [topics setTopics].
    rewrite rename_ids. by split.
Qed.

Lemma handleCreateTopic_distinctAndFresh (w : World) :
  neverReissues v1 → distinctAndFresh v1 w → distinctAndFresh v1 (handleCreateTopic v1 w).
Proof.
  intros Hinj [Hnd Hav].
  destruct (decide (JS.trim (newTopicName (ui w)) = EmptyString)) as [He | Hne].
  - rewrite handleCreateTopic_rejected by done. by split.
  - rewrite handleCreateTopic_accepted by done.
    unfold distinctAndFresh, avoids, ids in *. cbn [ui issued topics].
    rewrite fmap_cons. cbn [id]. split.
    + apply NoDup_cons. split; [by apply Hav | done].
    + intros j Hj. rewrite not_elem_of_cons. split.
      * intros Heq. apply Hinj in Heq. lia.
      * apply Hav. lia.
Qed.

Lemma handle_distinctAndFresh (e : Event) (w : World) :
  neverReissues v1 → distinctAndFresh v1 w → distinctAndFresh v1 (handle v1 e w).
Proof.
  intros Hinj Hw. destruct e as [value | | value | call]; cbn [handle].
  - exact Hw.
  - by apply handleCreateTopic_distinctAndFresh.
  - exact Hw.
  - by apply dispatch_distinctAndFresh.
Qed.

Lemma run_distinctAndFresh (es : list Event) (w : World) :
  neverReissues v1 → distinctAndFresh v1 w → distinctAndFresh v1 (run v1 es w).
Proof.
  intros Hinj. revert w. induction es as [|e es IH]; intros w Hw; [done |].
  unfold run. cbn [foldl]. apply IH. by apply handle_distinctAndFresh.
Qed.

(** C5, as amended.  Let the seed collection have pairwise distinct
    identifiers, and let the identifier source never return an identifier
    it has issued before nor an identifier of the seed.  Then after every
    finite sequence of events on the component (creations, deletions and
    renamings among them) the identifiers of the collection are pairwise
    distinct. *)
Theorem ids_stay_distinct (category : Category) (es : list Event) :
  NoDup (ids (types.topics category)) →
  neverReissues v1 →
  (∀ k, v1 k ∉ ids (types.topics category)) →
  NoDup (ids (topics (ui (run v1 es (mount category))))).
Proof.
  intros Hseed Hinj Hfresh.
  apply (run_distinctAndFresh es (mount category) Hinj).
  split; [exact Hseed |]. intros j _. apply Hfresh.
Qed.

End Uuid.

(** ** Reading the collection after a rename *)

Lemma rename_no_match (i newName : string) (ts : list Topic) :
  i ∉ ids ts →
  (∀ t, t ∈ ts → id t ≠ i → name t ≠ newName) →
  base.filter (λ topic, name topic = newName) (renamed i newName <$> ts) = [].
Proof.
  intros Hi Hother. rewrite rename_absent by done.
  induction ts as [|t ts IH]; [done |].
  unfold ids in Hi. rewrite fmap_cons, not_elem_of_cons in Hi.
  destruct Hi as [Hne Hi].
  rewrite filter_cons_False.
  - apply IH; [done |]. intros t' Ht'. apply Hother. by right.
  - apply Hother; [left | done].
Qed.

(** C7, as amended.  Let the identifiers of the collection be pairwise
    distinct, let [id] be one of them, and let no topic with another
    identifier be named [newName] already.  Then after
    [handleUpdateTopic id newName] the topics named [newName] are exactly
    one, and its identifier is [id]. *)
Theorem rename_then_read (i newName : string) (st : State) :
  NoDup (ids (topics st)) →
  i ∈ ids (topics st) →
  (∀ t, t ∈ topics st → id t ≠ i → name t ≠ newName) →
  namedExactlyOnce newName (topics (handleUpdateTopic i newName st)) i.
Proof.
  unfold namedExactlyOnce, handleUpdateTopic. cbn [topics setTopics].
  generalize (topics st) as ts. clear st.
  induction ts as [|t ts IH]; intros Hnd Hin Hother.
  - by apply elem_of_nil in Hin.
  - unfold ids in Hnd, Hin. rewrite fmap_cons in Hnd, Hin.
    apply NoDup_cons in Hnd as [Ht Hnd]. rewrite fmap_cons.
    unfold renamed at 1. case_decide as Heq.
    + subst i. rewrite filter_cons_True by done.
      rewrite rename_no_match; [done | done |].
      intros t' Ht'. apply Hother. by right.
    + rewrite filter_cons_False by (apply Hother; [left | done]).
      apply IH; [done | | intros t' Ht'; apply Hother; by right].
      apply elem_of_cons in Hin as [Hin | Hin]; [congruence | done].
Qed.

End StoreFacts.

(* ===================================================================== *)
(** * The Topic view *)
(* ===================================================================== *)

Module TopicFacts.
Import TopicView.

Lemma Viewing_or_Editing (st : State) : Viewing st ∨ Editing st.
Proof. unfold Viewing, Editing. destruct (isEditing st); auto. Qed.

(** From an editing state, each control leads to exactly this. *)
Lemma step_Editing_inv (topic : types.Topic) (st st' : State) (c : Control) (calls : list Call) :
  Editing st → step topic st c calls st' →
  (∃ value, c = NameInput value ∧ st' = setName value st ∧ calls = []) ∨
  (c = SaveButton ∧ st' = setIsEditing false st ∧
     calls = [onUpdate (types.id topic) (name st)]) ∨
  (c = DeleteButton ∧ st' = st ∧ calls = [onDelete (types.id topic)]).
Proof.
  unfold Editing, step, fire. intros Hed Hstep.
  destruct c as [value | | |]; cbn [rendered handler] in Hstep; try rewrite Hed in Hstep;
    cbn in Hstep; try discriminate; injection Hstep as <- <-.
  - left. by exists value.
  - right. left. done.
  - right. right. done.
Qed.

Lemma delete_always_rendered (topic : types.Topic) (st : State) :
  step topic st DeleteButton [onDelete (types.id topic)] st.
Proof. reflexivity. Qed.

(** C8. The view has two states, Viewing (at mount) and Editing.  A
    transition that starts in Editing and ends in Viewing is a click on
    Save; it calls [onUpdate] with the topic's id and the buffered name,
    nothing else, and [onUpdate] is the store's [handleUpdateTopic].  Save is
    rendered in every Editing state, and it does lead to Viewing.  So no
    transition leaves Editing without the rename.  In every reachable state
    the Delete button is rendered and calls [onDelete] with the topic's id,
    which is the store's [handleDeleteTopic]. *)
Theorem editing_ends_by_commit_only (topic : types.Topic) :
  Viewing (init topic) ∧
  (∀ st, Viewing st ∨ Editing st) ∧
  (∀ st c calls st',
     Editing st → step topic st c calls st' → Viewing st' →
     c = SaveButton ∧ calls = [onUpdate (types.id topic) (name st)] ∧
     ∀ s, foldl (λ s call, Store.dispatch call s) s calls
          = Store.handleUpdateTopic (types.id topic) (name st) s) ∧
  (∀ st, Editing st →
     step topic st SaveButton [onUpdate (types.id topic) (name st)] (setIsEditing false st) ∧
     Viewing (setIsEditing false st)) ∧
  (∀ st, reachable st →
     step topic st DeleteButton [onDelete (types.id topic)] st ∧
     ∀ s, Store.dispatch (onDelete (types.id topic)) s
          = Store.handleDeleteTopic (types.id topic) s).
Proof.
  split_and!.
  - reflexivity.
  - apply Viewing_or_Editing.
  - intros st c calls st' Hed Hstep Hview.
    destruct (step_Editing_inv topic st st' c calls Hed Hstep)
      as [(value & -> & -> & ->) | [(-> & -> & ->) | (-> & -> & ->)]].
    + unfold Viewing, Editing in *. cbn in Hview. congruence.
    + done.
    + unfold Viewing, Editing in *. congruence.
  - intros st Hed. split; [| reflexivity].
    unfold step, fire. cbn [rendered]. unfold Editing in Hed. by rewrite Hed.
  - intros st _. split; [apply delete_always_rendered | done].
Qed.

End TopicFacts.

(* ===================================================================== *)
(** * Worked scenarios on the seed of App.tsx *)
(* ===================================================================== *)

Module Scenarios.
Import types Store.

Lemma primes_inj (i j : nat) : Sources.primes i = Sources.primes j → i = j.
Proof.
  revert j. induction i as [|i IH]; intros [|j]; simpl; try done.
  intros [= H]. f_equal. by apply IH.
Qed.

Lemma uuid_neverReissues : neverReissues Sources.uuid.
Proof. intros i j [= H]. by apply primes_inj. Qed.

Lemma uuid_avoids_seed (k : nat) :
  Sources.uuid k ∉ ids (types.topics App.initialCategory).
Proof.
  unfold Sources.uuid, ids. cbn.
  rewrite !not_elem_of_cons. split_and!; try discriminate. apply not_elem_of_nil.
Qed.

Lemma ones_not_empty (k : nat) : Sources.ones k ≠ EmptyString.
Proof. by destruct k. Qed.

Lemma ones_neverReissues : neverReissues Sources.ones.
Proof.
  intros i. induction i as [|i IH]; intros [|j]; simpl; try done.
  - intros [= H]. symmetry in H. by apply ones_not_empty in H.
  - intros [= H]. by apply ones_not_empty in H.
  - intros [= H]. f_equal. by apply IH.
Qed.

Example trim_example : JS.trim "  React Hooks 	" = "React Hooks".
Proof. reflexivity. Qed.

Example toLowerCase_example : JS.toLowerCase "HTML5 & CSS" = "html5 & css".
Proof. reflexivity. Qed.

Example includes_example : JS.includes "javascript" "java" = true /\ JS.includes "css" "html" = false /\ JS.includes "css" EmptyString = true.
Proof. repeat split; reflexivity. Qed.

(** The seed after "TypeScript" is typed and added, CSS is deleted and
    "java" is typed into the filter. *)
Example end_to_end :
  let w1 := run Sources.uuid (create "TypeScript") (mount App.initialCategory) in
  let w2 := run Sources.uuid (delete "2") w1 in
  let w3 := run Sources.uuid [ChangeFilter "java"] w2 in
  name <$> topics (ui w1) = ["TypeScript"; "HTML"; "CSS"; "JavaScript"; "React"] ∧
  name <$> topics (ui w2) = ["TypeScript"; "HTML"; "JavaScript"; "React"] ∧
  filteredTopics (ui w3) = [ {| id := "3"; name := "JavaScript" |} ] ∧
  topics (ui w3) = topics (ui w2).
Proof. vm_compute. done. Qed.

Example filter_html :
  name <$> filteredTopics
    {| topics := [ {| id := "a"; name := "HTML" |}; {| id := "b"; name := "CSS" |};
                   {| id := "c"; name := "html5" |} ];
       newTopicName := EmptyString;
       filter := "html" |}
  = ["HTML"; "html5"].
Proof. vm_compute. done. Qed.

Example create_then_read :
  head (filteredTopics (ui (run Sources.uuid (create "X") (mount App.initialCategory))))
  = Some {| id := "u"; name := "X" |}.
Proof. vm_compute. done. Qed.

Example rename_takes_the_name_as_it_is :
  name <$> topics (handleUpdateTopic "2" "  " (handleUpdateTopic "1" " Html " (init App.initialCategory)))
  = [" Html "; "  "; "JavaScript"; "React"].
Proof. vm_compute. done. Qed.

(** The two cases of [create_spec] on the seed: a blank name, and a name
    with white space around it. *)
Lemma create_spec_witness :
  topics (ui (run Sources.uuid (create "   ") (mount App.initialCategory)))
    = types.topics App.initialCategory ∧
  topics (ui (run Sources.uuid (create " TypeScript ") (mount App.initialCategory)))
    = {| id := "u"; name := "TypeScript" |} :: types.topics App.initialCategory.
Proof.
  split.
  - apply (proj1 (StoreFacts.create_spec Sources.uuid "   " (mount App.initialCategory))).
    reflexivity.
  - apply (proj2 (StoreFacts.create_spec Sources.uuid " TypeScript " (mount App.initialCategory))).
    vm_compute. discriminate.
Defined.

(** The two cases of [handleCreateTopic_buffer]: a blank buffer stays as
    typed, an accepted one is cleared. *)
Lemma handleCreateTopic_buffer_witness :
  newTopicName (ui (handleCreateTopic Sources.uuid
                      (lift (setNewTopicName "   ") (mount App.initialCategory)))) = "   " ∧
  newTopicName (ui (handleCreateTopic Sources.uuid
                      (lift (setNewTopicName " Vite ") (mount App.initialCategory)))) = EmptyString.
Proof.
  split.
  - rewrite (proj1 (StoreFacts.handleCreateTopic_buffer Sources.uuid
                      (lift (setNewTopicName "   ") (mount App.initialCategory))));
      reflexivity.
  - apply (StoreFacts.handleCreateTopic_buffer Sources.uuid
             (lift (setNewTopicName " Vite ") (mount App.initialCategory))).
    vm_compute. discriminate.
Defined.

(** [ids_stay_distinct] on the seed of [App.tsx], for a run that creates,
    renames, deletes and creates again. *)
Lemma ids_stay_distinct_witness :
  NoDup (ids (types.topics App.initialCategory)) ∧
  neverReissues Sources.uuid ∧
  NoDup (ids (topics (ui (run Sources.uuid
                            (create "TypeScript" ++ rename "2" "Sass" ++ delete "u" ++ create "Vite")
                            (mount App.initialCategory))))).
Proof.
  assert (Hseed : NoDup (ids (types.topics App.initialCategory))) by by_evaluation.
  split_and!; [exact Hseed | exact uuid_neverReissues |].
  apply (StoreFacts.ids_stay_distinct Sources.uuid App.initialCategory);
    [exact Hseed | exact uuid_neverReissues | exact uuid_avoids_seed].
Defined.

(** C5 as stated fails: the seed identifiers are distinct and the source
    [ones] never repeats itself, but its first identifier is the seed
    identifier ["1"], so one creation leaves two topics with that id. *)
Lemma source_may_return_a_seed_id :
  NoDup (ids (types.topics App.initialCategory)) ∧
  neverReissues Sources.ones ∧
  ids (topics (ui (run Sources.ones (create "TypeScript") (mount App.initialCategory))))
    = ["1"; "1"; "2"; "3"; "4"] ∧
  ¬ NoDup (ids (topics (ui (run Sources.ones (create "TypeScript") (mount App.initialCategory))))).
Proof.
  split_and!.
  - by_evaluation.
  - exact ones_neverReissues.
  - reflexivity.
  - intros H. apply (bool_decide_pack _) in H. vm_compute in H. exact H.
Qed.

(** [rename_then_read] on the seed: CSS becomes Foo. *)
Lemma rename_then_read_witness :
  NoDup (ids (types.topics App.initialCategory)) ∧
  "2" ∈ ids (types.topics App.initialCategory) ∧
  namedExactlyOnce "Foo" (topics (handleUpdateTopic "2" "Foo" (init App.initialCategory))) "2".
Proof.
  assert (Hseed : NoDup (ids (types.topics App.initialCategory))) by by_evaluation.
  assert (Hin : "2" ∈ ids (types.topics App.initialCategory)) by by_evaluation.
  split_and!; [exact Hseed | exact Hin |].
  apply (StoreFacts.rename_then_read "2" "Foo" (init App.initialCategory) Hseed Hin).
  apply (proj1 (Forall_forall (λ t, id t ≠ "2" → name t ≠ "Foo") _)). by_evaluation.
Defined.

(** C7 as stated fails, in two ways.  With HTML renamed to Foo first,
    topic 2 is in the collection, and after [handleUpdateTopic "2" "Foo"]
    the collection shows two topics named Foo.  And in a collection where
    two topics share the identifier 7, [handleUpdateTopic "7" "Foo"] renames
    both. *)
Lemma rename_to_a_name_in_use :
  ("2" ∈ ids (topics (handleUpdateTopic "1" "Foo" (init App.initialCategory))) ∧
   base.filter (λ topic, name topic = "Foo")
     (topics (handleUpdateTopic "2" "Foo" (handleUpdateTopic "1" "Foo" (init App.initialCategory))))
     = [ {| id := "1"; name := "Foo" |}; {| id := "2"; name := "Foo" |} ] ∧
   ¬ namedExactlyOnce "Foo"
       (topics (handleUpdateTopic "2" "Foo" (handleUpdateTopic "1" "Foo" (init App.initialCategory))))
       "2") ∧
  ("7" ∈ ids [ {| id := "7"; name := "Vite" |}; {| id := "7"; name := "pnpm" |} ] ∧
   ¬ namedExactlyOnce "Foo"
       (topics (handleUpdateTopic "7" "Foo"
                  {| topics := [ {| id := "7"; name := "Vite" |}; {| id := "7"; name := "pnpm" |} ];
                     newTopicName := EmptyString;
                     filter := EmptyString |}))
       "7").
Proof.
  split; split_and!.
  - by_evaluation.
  - vm_compute. done.
  - unfold namedExactlyOnce. vm_compute. discriminate.
  - by_evaluation.
  - unfold namedExactlyOnce. vm_compute. discriminate.
Qed.

(** C6 fails on the code.  No seed topic has an empty name.  On the view
    of HTML, clicking Edit, emptying the input and clicking Save calls
    [onUpdate "1" ""]; [handleUpdateTopic] commits that name as it is, and
    the collection then holds a topic whose name is the empty string.  A
    name of white space only is committed as well. *)
Lemma rename_commits_an_empty_name :
  Forall (λ t, name t ≠ EmptyString) (types.topics App.initialCategory) ∧
  TopicView.fire {| id := "1"; name := "HTML" |}
      {| TopicView.isEditing := false; TopicView.name := "HTML" |} TopicView.EditButton
    = Some ({| TopicView.isEditing := true; TopicView.name := "HTML" |}, []) ∧
  TopicView.fire {| id := "1"; name := "HTML" |}
      {| TopicView.isEditing := true; TopicView.name := "HTML" |} (TopicView.NameInput EmptyString)
    = Some ({| TopicView.isEditing := true; TopicView.name := EmptyString |}, []) ∧
  TopicView.fire {| id := "1"; name := "HTML" |}
      {| TopicView.isEditing := true; TopicView.name := EmptyString |} TopicView.SaveButton
    = Some ({| TopicView.isEditing := false; TopicView.name := EmptyString |},
            [TopicView.onUpdate "1" EmptyString]) ∧
  topics (ui (run Sources.uuid (rename "1" EmptyString) (mount App.initialCategory)))
    = [ {| id := "1"; name := EmptyString |}; {| id := "2"; name := "CSS" |};
        {| id := "3"; name := "JavaScript" |}; {| id := "4"; name := "React" |} ] ∧
  ¬ Forall (λ t, name t ≠ EmptyString)
      (topics (ui (run Sources.uuid (rename "1" EmptyString) (mount App.initialCategory)))) ∧
  name <$> topics (ui (run Sources.uuid (rename "2" "   ") (mount App.initialCategory)))
    = ["HTML"; "   "; "JavaScript"; "React"].
Proof.
  split_and!; try reflexivity.
  - by_evaluation.
  - intros H. apply (bool_decide_pack _) in H. vm_compute in H. exact H.
Qed.

End Scenarios.

(* ===================================================================== *)
(** * How the operations of the Category component compose *)
(* ===================================================================== *)

Module StoreLaws.
Import types Store.

(** ** List-level lemmas *)

Lemma filter_swap {A} (P Q : A → Prop) `{!∀ x, Decision (P x), !∀ x, Decision (Q x)}
    (l : list A) :
  base.filter P (base.filter Q l) = base.filter Q (base.filter P l).
Proof. rewrite !list_filter_filter. apply list_filter_iff. tauto. Qed.


Lemma deleted_not_in (i : string) (ts : list Topic) :
  i ∉ ids (base.filter (λ topic, id topic ≠ i) ts).
Proof.
  unfold ids. rewrite list_elem_of_fmap. intros (t & Hi & Ht).
  apply list_elem_of_filter in Ht as [Hne _]. by apply Hne.
Qed.

Lemma delete_one (i : string) (ts : list Topic) :
  NoDup (ids ts) → i ∈ ids ts →
  length ts = S (length (base.filter (λ topic, id topic ≠ i) ts)).
Proof.
  induction ts as [|t ts IH]; intros Hnd Hin.
  - by apply elem_of_nil in Hin.
  - unfold ids in Hnd, Hin. rewrite fmap_cons in Hnd, Hin.
    apply NoDup_cons in Hnd as [Ht Hnd].
    destruct (decide (id t = i)) as [Heq | Hne].
    + subst i. rewrite filter_cons_False by tauto.
      by rewrite StoreFacts.delete_absent.
    + rewrite filter_cons_True by done. simpl. f_equal. apply IH; [done |].
      apply elem_of_cons in Hin as [Hin | Hin]; [congruence | done].
Qed.

Lemma renamed_renamed (i n1 n2 : string) (t : Topic) :
  renamed i n2 (renamed i n1 t) = renamed i n2 t.
Proof. unfold renamed, withName. repeat case_decide; simpl in *; congruence. Qed.

Lemma renamed_swap (i j ni nj : string) (t : Topic) :
  i ≠ j → renamed i ni (renamed j nj t) = renamed j nj (renamed i ni t).
Proof. intros Hij. unfold renamed, withName. repeat case_decide; simpl in *; congruence. Qed.

Lemma renamed_same (i old : string) (t : Topic) :
  (id t = i → name t = old) → renamed i old t = t.
Proof.
  intros H. unfold renamed, withName. case_decide as Heq; [| done].
  destruct t as [ti tn]. simpl in *. by rewrite (H Heq).
Qed.

Lemma filter_renamed (j i newName : string) (ts : list Topic) :
  base.filter (λ topic, id topic ≠ j) (renamed i newName <$> ts)
  = renamed i newName <$> base.filter (λ topic, id topic ≠ j) ts.
Proof.
  induction ts as [|t ts IH]; [done |].
  rewrite fmap_cons. destruct (decide (id t = j)) as [Heq | Hne].
  - rewrite !filter_cons_False; [done | tauto |].
    rewrite StoreFacts.renamed_id. tauto.
  - rewrite !filter_cons_True; [| done |].
    + by rewrite fmap_cons, IH.
    + by rewrite StoreFacts.renamed_id.
Qed.

(** ** create *)

(** X1. A second click on "Add Topic" right after the first adds nothing:
    an accepted click clears the input buffer, and the empty buffer is
    rejected. *)
Theorem add_topic_twice (v1 : nat → string) (w : World) :
  handleCreateTopic v1 (handleCreateTopic v1 w) = handleCreateTopic v1 w.
Proof.
  destruct (decide (JS.trim (newTopicName (ui w)) = EmptyString)) as [Hrej | Hacc].
  - by rewrite !(StoreFacts.handleCreateTopic_rejected v1 w Hrej).
  - rewrite (StoreFacts.handleCreateTopic_accepted v1 w Hacc).
    by apply StoreFacts.handleCreateTopic_rejected.
Qed.

(** X2. What a click on "Add Topic" commits.  Either the buffer is white
    space only and nothing changes; or one topic is put in front whose name
    is the buffer without a run of white space on the left and one on the
    right.  That name is not empty, neither starts nor ends with white
    space, and trimming it again returns it. *)
Theorem created_name_is_trimmed (v1 : nat → string) (w : World) :
  (JS.allWhiteSpace (newTopicName (ui w)) = true ∧ handleCreateTopic v1 w = w) ∨
  (∃ t l r,
     topics (ui (handleCreateTopic v1 w)) = t :: topics (ui w) ∧
     newTopicName (ui w) = l +:+ name t +:+ r ∧
     JS.allWhiteSpace l = true ∧ JS.allWhiteSpace r = true ∧
     name t ≠ EmptyString ∧
     (∀ c, JS.head (name t) = Some c → JS.isWhiteSpace c = false) ∧
     (∀ c, JS.last (name t) = Some c → JS.isWhiteSpace c = false) ∧
     JS.trim (name t) = name t).
Proof.
  destruct (decide (JS.trim (newTopicName (ui w)) = EmptyString)) as [Hrej | Hacc].
  - left. split; [by apply JSFacts.trim_nil_iff |].
    by apply StoreFacts.handleCreateTopic_rejected.
  - right. destruct (JSFacts.trim_spec (newTopicName (ui w))) as (l & r & Hs & Hl & Hr & Hh & Hlast).
    exists {| id := v1 (issued w); name := JS.trim (newTopicName (ui w)) |}, l, r.
    rewrite (StoreFacts.handleCreateTopic_accepted v1 w Hacc). cbn [ui topics name].
    split_and!; try done. apply JSFacts.trim_idempotent.
Qed.

(** X3. Creating a topic and then deleting the identifier that the source
    hands out for it gives back the collection as it was, provided that
    identifier was not already in the collection. *)
Theorem create_then_delete (v1 : nat → string) (w : World) :
  v1 (issued w) ∉ ids (topics (ui w)) →
  topics (handleDeleteTopic (v1 (issued w)) (ui (handleCreateTopic v1 w))) = topics (ui w).
Proof.
  intros Hfresh. unfold handleDeleteTopic. cbn [topics setTopics].
  destruct (decide (JS.trim (newTopicName (ui w)) = EmptyString)) as [Hrej | Hacc].
  - rewrite (StoreFacts.handleCreateTopic_rejected v1 w Hrej).
    by apply StoreFacts.delete_absent.
  - rewrite (StoreFacts.handleCreateTopic_accepted v1 w Hacc). cbn [ui topics].
    rewrite filter_cons_False by (cbn; tauto).
    by apply StoreFacts.delete_absent.
Qed.

Lemma create_then_delete_witness :
  (Sources.uuid 0 ∉ ids (types.topics App.initialCategory)) ∧
  topics (handleDeleteTopic (Sources.uuid 0)
            (ui (handleCreateTopic Sources.uuid
                   (lift (setNewTopicName "Vite") (mount App.initialCategory)))))
  = types.topics App.initialCategory.
Proof.
  split; [apply Scenarios.uuid_avoids_seed |].
  apply (create_then_delete Sources.uuid
           (lift (setNewTopicName "Vite") (mount App.initialCategory))).
  apply Scenarios.uuid_avoids_seed.
Defined.

(** ** delete *)

(** X4. After [handleDeleteTopic id] no topic has the identifier [id], and
    deleting [id] once more changes nothing. *)
Theorem delete_is_final (i : string) (st : State) :
  (i ∉ ids (topics (handleDeleteTopic i st))) ∧
  handleDeleteTopic i (handleDeleteTopic i st) = handleDeleteTopic i st.
Proof.
  unfold handleDeleteTopic. cbn [topics newTopicName filter setTopics]. split.
  - apply deleted_not_in.
  - unfold setTopics. cbn [topics newTopicName filter]. f_equal.
    apply StoreFacts.delete_absent, deleted_not_in.
Qed.

(** X5. Two deletions can be made in either order. *)
Theorem delete_delete_commute (i j : string) (st : State) :
  handleDeleteTopic i (handleDeleteTopic j st) = handleDeleteTopic j (handleDeleteTopic i st).
Proof.
  unfold handleDeleteTopic, setTopics. cbn [topics newTopicName filter].
  f_equal. apply filter_swap.
Qed.

(** X6. When the identifiers of the collection are pairwise distinct and
    [id] is one of them, [handleDeleteTopic id] removes exactly one topic. *)
Theorem delete_removes_one (i : string) (st : State) :
  NoDup (ids (topics st)) → i ∈ ids (topics st) →
  length (topics st) = S (length (topics (handleDeleteTopic i st))).
Proof. unfold handleDeleteTopic. cbn [topics setTopics]. apply delete_one. Qed.

Lemma delete_removes_one_witness :
  length (topics (init App.initialCategory))
  = S (length (topics (handleDeleteTopic "3" (init App.initialCategory)))).
Proof.
  apply (delete_removes_one "3" (init App.initialCategory)); by_evaluation.
Defined.

(** ** rename *)

(** X7. Of two renamings of the same identifier the second one decides: the
    first leaves no trace. *)
Theorem rename_last_wins (i n1 n2 : string) (st : State) :
  handleUpdateTopic i n2 (handleUpdateTopic i n1 st) = handleUpdateTopic i n2 st.
Proof.
  unfold handleUpdateTopic, setTopics. cbn [topics newTopicName filter]. f_equal.
  rewrite <- list_fmap_compose. apply list_fmap_ext.
  intros k t _. apply renamed_renamed.
Qed.

(** X8. Renamings of two different identifiers can be made in either order. *)
Theorem rename_rename_commute (i j ni nj : string) (st : State) :
  i ≠ j →
  handleUpdateTopic i ni (handleUpdateTopic j nj st)
  = handleUpdateTopic j nj (handleUpdateTopic i ni st).
Proof.
  intros Hij. unfold handleUpdateTopic, setTopics. cbn [topics newTopicName filter]. f_equal.
  rewrite <- !list_fmap_compose. apply list_fmap_ext.
  intros k t _. by apply renamed_swap.
Qed.

Lemma rename_rename_commute_witness :
  handleUpdateTopic "1" "Markup" (handleUpdateTopic "2" "Styles" (init App.initialCategory))
  = handleUpdateTopic "2" "Styles" (handleUpdateTopic "1" "Markup" (init App.initialCategory)).
Proof.
  apply (rename_rename_commute "1" "2" "Markup" "Styles" (init App.initialCategory)).
  discriminate.
Defined.

(** X9. A deletion and a renaming can be made in either order, whatever the
    two identifiers; when they are the same identifier, the renaming makes
    no difference to the outcome of the deletion. *)
Theorem delete_rename_commute (i j newName : string) (st : State) :
  handleDeleteTopic j (handleUpdateTopic i newName st)
  = handleUpdateTopic i newName (handleDeleteTopic j st) ∧
  handleDeleteTopic i (handleUpdateTopic i newName st) = handleDeleteTopic i st.
Proof.
  unfold handleDeleteTopic, handleUpdateTopic, setTopics. cbn [topics newTopicName filter].
  split; f_equal.
  - apply filter_renamed.
  - rewrite filter_renamed. apply StoreFacts.rename_absent, deleted_not_in.
Qed.

(** X10. Renaming back.  When every topic with the identifier [id] is
    named [old], renaming [id] to [old] changes nothing, and renaming it to
    anything and then to [old] gives back the state as it was. *)
Theorem rename_back (i old newName : string) (st : State) :
  (∀ t, t ∈ topics st → id t = i → name t = old) →
  handleUpdateTopic i old st = st ∧
  handleUpdateTopic i old (handleUpdateTopic i newName st) = st.
Proof.
  intros Hold.
  assert (Hsame : renamed i old <$> topics st = topics st).
  { rewrite <- (list_fmap_id (topics st)) at 2. apply list_fmap_ext.
    intros k t Hk. apply renamed_same. apply Hold. by eapply list_elem_of_lookup_2. }
  unfold handleUpdateTopic. cbn [topics setTopics]. split.
  - rewrite Hsame. apply StoreFacts.setTopics_same.
  - unfold setTopics. cbn [topics newTopicName filter].
    assert (Htwice : renamed i old <$> (renamed i newName <$> topics st)
                     = renamed i old <$> topics st).
    { rewrite <- list_fmap_compose. apply list_fmap_ext.
      intros k t _. apply renamed_renamed. }
    rewrite Htwice, Hsame. by destruct st.
Qed.

Lemma rename_back_witness :
  handleUpdateTopic "2" "CSS" (handleUpdateTopic "2" "Sass" (init App.initialCategory))
  = init App.initialCategory.
Proof.
  apply (rename_back "2" "CSS" "Sass" (init App.initialCategory)).
  apply (proj1 (Forall_forall (λ t, id t = "2" → name t = "CSS") _)). by_evaluation.
Defined.

End StoreLaws.

(* ===================================================================== *)
(** * The rendered list *)
(* ===================================================================== *)

Module FilterLaws.
Import types Store.


(** X11. The keys of the rendered [Topic] elements are the identifiers of
    [filteredTopics].  From a seed with pairwise distinct identifiers, and
    with an identifier source that returns neither an identifier twice nor
    one of the seed, these keys are pairwise distinct after every sequence
    of events, whatever the filter is. *)
Theorem rendered_keys_distinct (v1 : nat → string) (category : Category) (es : list Event) :
  NoDup (ids (types.topics category)) →
  neverReissues v1 →
  (∀ k, v1 k ∉ ids (types.topics category)) →
  NoDup (ids (filteredTopics (ui (run v1 es (mount category))))).
Proof.
  intros Hseed Hinj Hfresh. unfold filteredTopics.
  apply StoreFacts.ids_filter_NoDup.
  apply (StoreFacts.run_distinctAndFresh v1 es (mount category) Hinj).
  split; [exact Hseed |]. intros j _. apply Hfresh.
Qed.

Lemma rendered_keys_distinct_witness :
  NoDup (ids (filteredTopics (ui (run Sources.uuid
           (create "Vitest" ++ create "Vite" ++ [ChangeFilter "t"] ++ delete "2")
           (mount App.initialCategory))))).
Proof.
  apply (rendered_keys_distinct Sources.uuid App.initialCategory).
  - by_evaluation.
  - exact Scenarios.uuid_neverReissues.
  - exact Scenarios.uuid_avoids_seed.
Defined.


(** X13. The letter case of the query is ignored: the query and its
    lower-case form render the same list. *)
Theorem query_case_is_ignored (q : string) (st : State) :
  filteredTopics (setFilter (JS.toLowerCase q) st) = filteredTopics (setFilter q st).
Proof.
  unfold filteredTopics. cbn [topics filter setFilter].
  by rewrite JSFacts.toLowerCase_idempotent.
Qed.

(** X14. Deleting a topic and filtering can be done in either order: the
    rendered list after [handleDeleteTopic id] is the rendered list before
    it without the topics whose identifier is [id]. *)
Theorem delete_then_render (i : string) (st : State) :
  filteredTopics (handleDeleteTopic i st)
  = base.filter (λ topic, id topic ≠ i) (filteredTopics st).
Proof.
  unfold filteredTopics, handleDeleteTopic. cbn [topics filter setTopics].
  apply StoreLaws.filter_swap.
Qed.

(** X15. An accepted click on "Add Topic" puts the new topic in front of
    the rendered list when its name contains the current query, ignoring
    case; otherwise the rendered list stays as it was and the new topic is
    in the collection without being shown. *)
Theorem create_then_render (v1 : nat → string) (w : World) :
  JS.trim (newTopicName (ui w)) ≠ EmptyString →
  filteredTopics (ui (handleCreateTopic v1 w))
  = (if JS.includes (JS.toLowerCase (JS.trim (newTopicName (ui w))))
                    (JS.toLowerCase (filter (ui w)))
     then [ {| id := v1 (issued w); name := JS.trim (newTopicName (ui w)) |} ]
     else [])
    ++ filteredTopics (ui w).
Proof.
  intros Hacc. rewrite (StoreFacts.handleCreateTopic_accepted v1 w Hacc).
  unfold filteredTopics. cbn [ui topics filter].
  rewrite filter_cons. cbn [name].
  destruct (JS.includes _ _); reflexivity.
Qed.

Lemma create_then_render_witness :
  filteredTopics (ui (handleCreateTopic Sources.uuid
                        (lift (setNewTopicName " Vite ")
                           (lift (setFilter "HTML") (mount App.initialCategory)))))
  = [ {| id := "1"; name := "HTML" |} ].
Proof.
  rewrite (create_then_render Sources.uuid
             (lift (setNewTopicName " Vite ")
                (lift (setFilter "HTML") (mount App.initialCategory)))).
  - reflexivity.
  - vm_compute. discriminate.
Defined.

End FilterLaws.

(* ===================================================================== *)
(** * What every sequence of events keeps *)
(* ===================================================================== *)

Module RunLaws.
Import types Store.

Lemma filter_none {A} (P : A → Prop) `{!∀ x, Decision (P x)} (l : list A) :
  (∀ x, x ∈ l → ¬ P x) → base.filter P l = [].
Proof.
  induction l as [|x l IH]; intros Hnone; [done |].
  rewrite filter_cons_False by (apply Hnone; left).
  apply IH. intros y Hy. apply Hnone. by right.
Qed.

Section Uuid.
Variable v1 : nat → string.

Lemma run_cons (e : Event) (es : list Event) (w : World) :
  run v1 (e :: es) w = run v1 es (handle v1 e w).
Proof. reflexivity. Qed.

(** One event: the counter of issued identifiers does not go back, and the
    collection grows by no more than the counter does. *)
Lemma handle_growth (e : Event) (w : World) :
  issued w ≤ issued (handle v1 e w) ∧
  length (topics (ui (handle v1 e w))) + issued w
    ≤ length (topics (ui w)) + issued (handle v1 e w).
Proof.
  destruct e as [value | | value | [i | i newName]]; cbn [handle lift ui issued dispatch].
  - cbn. lia.
  - destruct (decide (JS.trim (newTopicName (ui w)) = EmptyString)) as [Hrej | Hacc].
    + rewrite (StoreFacts.handleCreateTopic_rejected v1 w Hrej). lia.
    + rewrite (StoreFacts.handleCreateTopic_accepted v1 w Hacc). cbn. lia.
  - cbn. lia.
  - unfold handleDeleteTopic. cbn [topics setTopics].
    pose proof (length_filter (λ topic, id topic ≠ i) (topics (ui w))). lia.
  - unfold handleUpdateTopic. cbn [topics setTopics]. rewrite length_fmap. lia.
Qed.

Lemma run_growth (es : list Event) (w : World) :
  issued w ≤ issued (run v1 es w) ∧
  length (topics (ui (run v1 es w))) + issued w
    ≤ length (topics (ui w)) + issued (run v1 es w).
Proof.
  revert w. induction es as [|e es IH]; intros w; [cbn; lia |].
  rewrite run_cons. destruct (IH (handle v1 e w)) as [IH1 IH2].
  destruct (handle_growth e w) as [H1 H2]. lia.
Qed.

(** One event: an identifier of the collection was there before, or it is
    the one just issued. *)
Lemma handle_ids (e : Event) (w : World) (x : string) :
  x ∈ ids (topics (ui (handle v1 e w))) →
  x ∈ ids (topics (ui w)) ∨
  (x = v1 (issued w) ∧ issued (handle v1 e w) = S (issued w)).
Proof.
  destruct e as [value | | value | [i | i newName]]; cbn [handle lift ui issued dispatch].
  - by left.
  - destruct (decide (JS.trim (newTopicName (ui w)) = EmptyString)) as [Hrej | Hacc].
    + rewrite (StoreFacts.handleCreateTopic_rejected v1 w Hrej). by left.
    + rewrite (StoreFacts.handleCreateTopic_accepted v1 w Hacc). cbn [ui topics issued].
      unfold ids. rewrite fmap_cons, elem_of_cons. cbn [id].
      intros [-> | Hin]; [by right | by left].
  - by left.
  - unfold handleDeleteTopic. cbn [topics setTopics]. intros Hin. left.
    by eapply StoreFacts.ids_filter_subseteq.
  - unfold handleUpdateTopic. cbn [topics setTopics].
    rewrite StoreFacts.rename_ids. by left.
Qed.

(** X16. Over any sequence of events the counter of issued identifiers
    does not go back, and the collection grows by no more topics than
    identifiers were issued: only an accepted "Add Topic" makes it longer,
    by one. *)
Theorem collection_grows_by_creation_only (es : list Event) (w : World) :
  issued w ≤ issued (run v1 es w) ∧
  length (topics (ui (run v1 es w))) ≤
    length (topics (ui w)) + (issued (run v1 es w) - issued w) ∧
  (issued (run v1 es w) = issued w →
     length (topics (ui (run v1 es w))) ≤ length (topics (ui w))).
Proof. destruct (run_growth es w) as [H1 H2]. split_and!; lia. Qed.

(** X17. Identifiers are never made up: after any sequence of events, an
    identifier of the collection is one the collection started with, or one
    the source issued during these events. *)
Theorem ids_come_from_seed_or_source (es : list Event) (w : World) (x : string) :
  x ∈ ids (topics (ui (run v1 es w))) →
  x ∈ ids (topics (ui w)) ∨
  ∃ k, issued w ≤ k < issued (run v1 es w) ∧ x = v1 k.
Proof.
  revert w. induction es as [|e es IH]; intros w Hx; [by left |].
  rewrite run_cons in Hx |- *.
  pose proof (handle_growth e w) as [Hmono _].
  pose proof (run_growth es (handle v1 e w)) as [Hmono' _].
  destruct (IH _ Hx) as [Hin | (k & Hk & ->)].
  - destruct (handle_ids e w x Hin) as [Hold | [-> Hs]]; [by left |].
    right. exists (issued w). split; [lia | done].
  - right. exists k. split; [lia | done].
Qed.

Lemma run_deletes (js : list string) (w : World) :
  topics (ui (run v1 ((λ i, FromTopic (TopicView.onDelete i)) <$> js) w))
  = base.filter (λ topic, id topic ∉ js) (topics (ui w)).
Proof.
  revert w. induction js as [|j js IH]; intros w.
  - cbn [fmap list_fmap run foldl]. symmetry. apply StoreFacts.filter_all.
    intros t _. apply not_elem_of_nil.
  - rewrite fmap_cons, run_cons, IH. cbn [handle lift ui dispatch].
    unfold handleDeleteTopic. cbn [topics setTopics].
    rewrite list_filter_filter. apply list_filter_iff.
    intros t. rewrite not_elem_of_cons. tauto.
Qed.

(** X18. Deleting a list of identifiers one after the other leaves the
    topics whose identifier is not in the list, in their order; deleting
    every identifier of the collection leaves it empty. *)
Theorem delete_all (w : World) :
  (∀ js, topics (ui (run v1 ((λ i, FromTopic (TopicView.onDelete i)) <$> js) w))
         = base.filter (λ topic, id topic ∉ js) (topics (ui w))) ∧
  topics (ui (run v1 ((λ i, FromTopic (TopicView.onDelete i)) <$> ids (topics (ui w))) w)) = [].
Proof.
  split; [intros js; apply run_deletes |].
  rewrite run_deletes. apply filter_none.
  intros t Ht Hnot. apply Hnot. unfold ids. apply list_elem_of_fmap. by exists t.
Qed.

(** X19. Names stay non-empty as long as no renaming passes the empty
    string: from a collection without an empty name, every sequence of
    events that holds no [onUpdate] call with the empty string ends in a
    collection without an empty name.  Creation and deletion never bring
    one in. *)
Theorem names_stay_nonempty (es : list Event) (w : World) :
  Forall (λ e, ∀ i, e ≠ FromTopic (TopicView.onUpdate i EmptyString)) es →
  Forall (λ t, name t ≠ EmptyString) (topics (ui w)) →
  Forall (λ t, name t ≠ EmptyString) (topics (ui (run v1 es w))).
Proof.
  revert w. induction es as [|e es IH]; intros w Hes Hw; [done |].
  apply Forall_cons in Hes as [He Hes].
  rewrite run_cons. apply IH; [done |].
  by apply StoreFacts.handle_names_nonempty.
Qed.

End Uuid.

Lemma ids_come_from_seed_or_source_witness :
  "u" ∈ ids (types.topics App.initialCategory) ∨
  ∃ k, 0 ≤ k < issued (run Sources.uuid (create "Vite") (mount App.initialCategory))
       ∧ "u" = Sources.uuid k.
Proof.
  apply (ids_come_from_seed_or_source Sources.uuid (create "Vite") (mount App.initialCategory)).
  by_evaluation.
Defined.

Lemma names_stay_nonempty_witness :
  Forall (λ t, name t ≠ EmptyString)
    (topics (ui (run Sources.uuid
                   (create "   " ++ create " Vite " ++ rename "2" " " ++ delete "1")
                   (mount App.initialCategory)))).
Proof.
  apply (names_stay_nonempty Sources.uuid).
  - repeat (apply Forall_cons; split; [intros i; discriminate |]). apply Forall_nil_2.
  - by_evaluation.
Defined.

End RunLaws.

(* ===================================================================== *)
(** * The Topic view and the collection together *)
(* ===================================================================== *)

Module ViewLaws.
Import TopicView.

(** X20. Whatever control is fired, the view calls its parent about its
    own topic only: every call carries the identifier of the [topic] prop.
    Typing and the Edit button make no call at all. *)
Theorem view_calls_about_its_topic (topic : types.Topic) (st st' : State)
    (c : Control) (calls : list Call) :
  step topic st c calls st' →
  Forall (λ call, call = onDelete (types.id topic)
                  ∨ ∃ newName, call = onUpdate (types.id topic) newName) calls ∧
  (calls ≠ [] → c = SaveButton ∨ c = DeleteButton).
Proof.
  unfold step, fire. destruct (rendered st c); [| discriminate].
  intros [= H]. destruct c as [value | | |];
    cbn [handler handleUpdate handleDelete] in H; injection H as <- <-.
  - split; [constructor | done].
  - split; [| by left].
    apply Forall_cons. split; [right; by eexists | apply Forall_nil_2].
  - split; [constructor | done].
  - split; [| by right].
    apply Forall_cons. split; [by left | apply Forall_nil_2].
Qed.

Lemma view_calls_about_its_topic_witness :
  Forall (λ call, call = onDelete "3" ∨ ∃ newName, call = onUpdate "3" newName)
    [onUpdate "3" "JS"].
Proof.
  apply (view_calls_about_its_topic
           {| types.id := "3"; types.name := "JavaScript" |}
           {| isEditing := true; name := "JS" |}
           {| isEditing := false; name := "JS" |}
           SaveButton [onUpdate "3" "JS"]).
  reflexivity.
Defined.

(** X21. The local name buffer changes by typing only.  Entering edit mode
    does not reload it from the topic and saving does not reset it: a step
    that changes the buffer is a keystroke in the input, made while
    editing, and the buffer is then the input's new value. *)
Theorem buffer_changes_by_typing_only (topic : types.Topic) (st st' : State)
    (c : Control) (calls : list Call) :
  step topic st c calls st' →
  name st' ≠ name st →
  Editing st ∧ c = NameInput (name st') ∧ calls = [].
Proof.
  unfold step, fire, Editing. destruct (rendered st c) eqn:Hr; [| discriminate].
  intros [= H] Hchg. destruct c as [value | | |];
    cbn [handler handleUpdate handleDelete] in H; injection H as <- <-;
    cbn in *; done.
Qed.

Lemma buffer_changes_by_typing_only_witness :
  Editing {| isEditing := true; name := "CSS" |} ∧
  NameInput "CSS3" = NameInput (name {| isEditing := true; name := "CSS3" |}).
Proof.
  destruct (buffer_changes_by_typing_only
              {| types.id := "2"; types.name := "CSS" |}
              {| isEditing := true; name := "CSS" |}
              {| isEditing := true; name := "CSS3" |}
              (NameInput "CSS3") []) as (He & Hc & _).
  - reflexivity.
  - discriminate.
  - split; [exact He | exact Hc].
Defined.

(** X22. Edit, type, Save.  From any viewing state of a topic's view,
    clicking Edit, typing [value] and clicking Save are three steps that
    can be taken; the first two call nothing; the view ends in the viewing
    state with [value] in its buffer; the calls of the third, dispatched by
    the Category component, rename to [value] exactly the topics that have
    this topic's identifier, so the view then displays [value]. *)
Theorem edit_type_save (topic : types.Topic) (st : State) (value : string)
    (store : Store.State) :
  Viewing st →
  ∃ st1 st2 st3 calls,
    step topic st EditButton [] st1 ∧
    step topic st1 (NameInput value) [] st2 ∧
    step topic st2 SaveButton calls st3 ∧
    Viewing st3 ∧ name st3 = value ∧
    Store.topics (Store.dispatchAll calls store)
      = Store.renamed (types.id topic) value <$> Store.topics store ∧
    (∀ t, t ∈ Store.topics (Store.dispatchAll calls store) →
          types.id t = types.id topic → types.name t = value) ∧
    shown (Store.renamed (types.id topic) value topic) st3 = value.
Proof.
  unfold Viewing. intros Hview.
  exists (setIsEditing true st), (setName value (setIsEditing true st)),
         (setIsEditing false (setName value (setIsEditing true st))),
         [onUpdate (types.id topic) value].
  unfold step, fire. cbn [rendered]. rewrite Hview.
  split_and!; try reflexivity.
  - intros t Ht Hid. cbn in Ht. apply list_elem_of_fmap in Ht as (t0 & -> & _).
    unfold Store.renamed in *. case_decide as Heq; [done |].
    cbn in Hid. congruence.
  - cbn. unfold Store.renamed. by rewrite decide_True.
Qed.

Lemma edit_type_save_witness :
  ∃ st1 st2 st3 calls,
    step {| types.id := "4"; types.name := "React" |}
         (init {| types.id := "4"; types.name := "React" |}) EditButton [] st1 ∧
    step {| types.id := "4"; types.name := "React" |} st1 (NameInput "React 19") [] st2 ∧
    step {| types.id := "4"; types.name := "React" |} st2 SaveButton calls st3 ∧
    Viewing st3 ∧ name st3 = "React 19" ∧
    Store.topics (Store.dispatchAll calls (Store.init App.initialCategory))
      = Store.renamed "4" "React 19" <$> Store.topics (Store.init App.initialCategory) ∧
    (∀ t, t ∈ Store.topics (Store.dispatchAll calls (Store.init App.initialCategory)) →
          types.id t = "4" → types.name t = "React 19") ∧
    shown (Store.renamed "4" "React 19" {| types.id := "4"; types.name := "React" |}) st3
      = "React 19".
Proof.
  apply (edit_type_save {| types.id := "4"; types.name := "React" |}
           (init {| types.id := "4"; types.name := "React" |}) "React 19"
           (Store.init App.initialCategory)).
  reflexivity.
Defined.

End ViewLaws.

(* ===================================================================== *)
(** * The todo list of the patterns guide *)
(* ===================================================================== *)

Module TodolistFacts.
Import Todolist.

Lemma ids_filter_sublist (P : Task → Prop) `{!∀ t, Decision (P t)} (ts : list Task) :
  ids (base.filter P ts) `sublist_of` ids ts.
Proof. unfold ids. apply fmap_sublist, sublist_filter. Qed.

Lemma status_ids (taskId : string) (b : bool) (ts : list Task) :
  ids ((λ task, if decide (id task = taskId) then withIsDone task b else task) <$> ts)
  = ids ts.
Proof.
  unfold ids. rewrite <- list_fmap_compose. apply list_fmap_ext.
  intros k t _. unfold compose. by case_decide.
Qed.

Lemma filteredTasks_all (st : AppState) :
  filter st = all → filteredTasks st = tasks st.
Proof. intros H. unfold filteredTasks. by rewrite H. Qed.

Lemma filteredTasks_active (st : AppState) :
  filter st = active →
  filteredTasks st = base.filter (λ task, ¬ Is_true (isDone task)) (tasks st).
Proof. intros H. unfold filteredTasks. by rewrite H. Qed.

Lemma filteredTasks_completed (st : AppState) :
  filter st = completed →
  filteredTasks st = base.filter (λ task, Is_true (isDone task)) (tasks st).
Proof. intros H. unfold filteredTasks. by rewrite H. Qed.

Section Uuid.
Variable v1 : nat → string.

Lemma tasks_run_cons (e : Event) (es : list Event) (w : World) :
  run v1 (e :: es) w = run v1 es (handle v1 e w).
Proof. reflexivity. Qed.

Lemma createTaskHandler_rejected (w : World) :
  JS.trim (taskTitle (item w)) = EmptyString →
  createTaskHandler v1 w = setError (Some "Title is required") w.
Proof. intros H. unfold createTaskHandler. cbn zeta. by rewrite decide_False by tauto. Qed.

Lemma createTaskHandler_accepted (w : World) :
  JS.trim (taskTitle (item w)) ≠ EmptyString →
  createTaskHandler v1 w =
    {| app := {| filter := filter (app w);
                 tasks := {| id := v1 (issued w);
                             title := JS.trim (taskTitle (item w));
                             isDone := false |} :: tasks (app w) |};
       item := {| taskTitle := EmptyString; error := error (item w) |};
       issued := S (issued w) |}.
Proof. intros H. unfold createTaskHandler. cbn zeta. by rewrite decide_True. Qed.

(** ** The error message *)

Lemma createTaskHandler_errorOnlyOverBlank (w : World) :
  errorOnlyOverBlank (item w) → errorOnlyOverBlank (item (createTaskHandler v1 w)).
Proof.
  intros Hw.
  destruct (decide (JS.trim (taskTitle (item w)) = EmptyString)) as [Hrej | Hacc].
  - rewrite (createTaskHandler_rejected w Hrej). right. by split.
  - rewrite (createTaskHandler_accepted w Hacc). unfold errorOnlyOverBlank. cbn [item taskTitle error].
    destruct Hw as [Hnone | [Hsome Hblank]]; [by left | done].
Qed.

Lemma handle_errorOnlyOverBlank (e : Event) (w : World) :
  errorOnlyOverBlank (item w) → errorOnlyOverBlank (item (handle v1 e w)).
Proof.
  intros Hw. destruct e as [value | | key | task | task checked | f |]; cbn [handle].
  - by left.
  - by apply createTaskHandler_errorOnlyOverBlank.
  - unfold createTaskOnEnterHandler. case_decide; [| done].
    by apply createTaskHandler_errorOnlyOverBlank.
  - exact Hw.
  - exact Hw.
  - exact Hw.
  - exact Hw.
Qed.

Lemma run_errorOnlyOverBlank (es : list Event) (w : World) :
  errorOnlyOverBlank (item w) → errorOnlyOverBlank (item (run v1 es w)).
Proof.
  revert w. induction es as [|e es IH]; intros w Hw; [done |].
  rewrite tasks_run_cons. apply IH. by apply handle_errorOnlyOverBlank.
Qed.

(** X23. The error of the input.  After every sequence of events from the
    first render, the [error] cell is [null], or it is the message "Title is
    required" and the title in the input trims to the empty string.  So a
    click on "+" that changes the task list is made with no error on
    display and leaves none. *)
Theorem error_only_over_blank_title (k : nat) (es : list Event) :
  errorOnlyOverBlank (item (run v1 es (mount v1 k))) ∧
  (tasks (app (createTaskHandler v1 (run v1 es (mount v1 k))))
     ≠ tasks (app (run v1 es (mount v1 k))) →
   error (item (run v1 es (mount v1 k))) = None ∧
   error (item (createTaskHandler v1 (run v1 es (mount v1 k)))) = None).
Proof.
  assert (Hinv : errorOnlyOverBlank (item (run v1 es (mount v1 k)))).
  { apply run_errorOnlyOverBlank. by left. }
  split; [exact Hinv |]. intros Hchg.
  destruct (decide (JS.trim (taskTitle (item (run v1 es (mount v1 k)))) = EmptyString))
    as [Hrej | Hacc].
  - destruct Hchg. by rewrite (createTaskHandler_rejected _ Hrej).
  - destruct Hinv as [Hnone | [_ Hblank]]; [| done].
    split; [exact Hnone |].
    by rewrite (createTaskHandler_accepted _ Hacc).
Qed.

(** ** The filter buttons *)

(** X24. The three filters.  [all] shows the task list itself.  [active]
    and [completed] each show a subsequence of it, no task is in both, and
    the two together are a rearrangement of the whole list. *)
Theorem filters_partition_tasks (w : World) :
  filteredTasks (app (changeFilter all w)) = tasks (app w) ∧
  filteredTasks (app (changeFilter active w)) `sublist_of` tasks (app w) ∧
  filteredTasks (app (changeFilter completed w)) `sublist_of` tasks (app w) ∧
  (∀ t, t ∈ filteredTasks (app (changeFilter active w)) →
        t ∉ filteredTasks (app (changeFilter completed w))) ∧
  filteredTasks (app (changeFilter completed w))
    ++ filteredTasks (app (changeFilter active w)) ≡ₚ tasks (app w).
Proof.
  rewrite (filteredTasks_all (app (changeFilter all w))),
    (filteredTasks_active (app (changeFilter active w))),
    (filteredTasks_completed (app (changeFilter completed w))) by reflexivity.
  unfold changeFilter, setFilter. cbn [app tasks]. split_and!.
  - done.
  - apply sublist_filter.
  - apply sublist_filter.
  - intros t Ha Hc. apply list_elem_of_filter in Ha as [Ha _].
    apply list_elem_of_filter in Hc as [Hc _]. by apply Ha.
  - apply filter_app_complement.
Qed.

(** ** The checkbox *)

(** X25. [changeTaskStatus] keeps the identifiers and the titles of the
    list in place; afterwards every task with the given identifier has the
    given status, so it is shown under [completed] exactly when the box was
    checked and under [active] exactly when it was not; tasks with another
    identifier are the same as before; and of two changes for one
    identifier the second decides. *)
Theorem status_change (taskId : string) (b b' : bool) (w : World) :
  ids (tasks (app (changeTaskStatus taskId b w))) = ids (tasks (app w)) ∧
  title <$> tasks (app (changeTaskStatus taskId b w)) = title <$> tasks (app w) ∧
  (∀ t, t ∈ tasks (app (changeTaskStatus taskId b w)) → id t = taskId →
     isDone t = b ∧
     (t ∈ filteredTasks (app (changeFilter completed (changeTaskStatus taskId b w)))
        ↔ b = true) ∧
     (t ∈ filteredTasks (app (changeFilter active (changeTaskStatus taskId b w)))
        ↔ b = false)) ∧
  (∀ t, id t ≠ taskId →
     (t ∈ tasks (app (changeTaskStatus taskId b w)) ↔ t ∈ tasks (app w))) ∧
  changeTaskStatus taskId b (changeTaskStatus taskId b' w) = changeTaskStatus taskId b w.
Proof.
  split_and!.
  3: intros t;
     rewrite (filteredTasks_active (app (changeFilter active (changeTaskStatus taskId b w)))),
       (filteredTasks_completed (app (changeFilter completed (changeTaskStatus taskId b w))))
       by reflexivity;
     revert t.
  all: unfold changeTaskStatus, changeFilter, setFilter, setTasks;
    cbn [app tasks filter item issued].
  - apply status_ids.
  - rewrite <- list_fmap_compose. apply list_fmap_ext.
    intros k t _. unfold compose. by case_decide.
  - intros t Ht Hid.
    assert (Hb : isDone t = b).
    { apply list_elem_of_fmap in Ht as (t0 & -> & _).
      case_decide as Heq; [done |]. by destruct Heq. }
    split; [exact Hb |]. rewrite !list_elem_of_filter, Hb.
    destruct b; cbn; split; split; try done; try tauto; intros [? ?]; done.
  - intros t Hne. rewrite list_elem_of_fmap. split.
    + intros (t0 & -> & Ht0). case_decide as Heq; [| done].
      cbn in Hne. by destruct Hne.
    + intros Ht. exists t. split; [| done]. by rewrite decide_False.
  - f_equal. f_equal. rewrite <- list_fmap_compose. apply list_fmap_ext.
    intros k t _. unfold compose, withIsDone. repeat case_decide; cbn in *; congruence.
Qed.

(** ** New tasks *)

(** X26. A task added by "+" is not done.  It is put in front of the
    displayed list under the filters [all] and [active]; under [completed]
    the displayed list stays as it was, and the new task is in the task list
    without being shown. *)
Theorem created_task_is_active (w : World) :
  JS.trim (taskTitle (item w)) ≠ EmptyString →
  filteredTasks (app (createTaskHandler v1 w))
  = if decide (filter (app w) = completed)
    then filteredTasks (app w)
    else {| id := v1 (issued w); title := JS.trim (taskTitle (item w)); isDone := false |}
           :: filteredTasks (app w).
Proof.
  intros Hacc. rewrite (createTaskHandler_accepted w Hacc).
  destruct (filter (app w)) eqn:Hf.
  - rewrite !filteredTasks_all by done. by rewrite decide_False.
  - rewrite !filteredTasks_active by done. rewrite decide_False by done.
    cbn [app tasks]. by rewrite filter_cons_True by (cbn; tauto).
  - rewrite !filteredTasks_completed by done. rewrite decide_True by done.
    cbn [app tasks]. by rewrite filter_cons_False by (cbn; tauto).
Qed.

(** ** Identifiers *)

Lemma mount_distinctAndFresh (k : nat) :
  Store.neverReissues v1 → distinctAndFresh v1 (mount v1 k).
Proof.
  intros Hinj. unfold distinctAndFresh, ids. cbn. split.
  - rewrite !NoDup_cons, !not_elem_of_cons. split_and!;
      try (intros Heq; apply Hinj in Heq; lia); try apply not_elem_of_nil.
    apply NoDup_nil_2.
  - intros j Hj. rewrite !not_elem_of_cons. split_and!;
      try (intros Heq; apply Hinj in Heq; lia). apply not_elem_of_nil.
Qed.

Lemma tasks_handle_distinctAndFresh (e : Event) (w : World) :
  Store.neverReissues v1 → distinctAndFresh v1 w → distinctAndFresh v1 (handle v1 e w).
Proof.
  intros Hinj [Hnd Hav].
  assert (Hcreate : distinctAndFresh v1 (createTaskHandler v1 w)).
  { destruct (decide (JS.trim (taskTitle (item w)) = EmptyString)) as [Hrej | Hacc].
    - rewrite (createTaskHandler_rejected w Hrej). by split.
    - rewrite (createTaskHandler_accepted w Hacc).
      unfold distinctAndFresh, ids in *. cbn [app tasks issued].
      rewrite fmap_cons. cbn [id]. split.
      + apply NoDup_cons. split; [by apply Hav | done].
      + intros j Hj. rewrite not_elem_of_cons. split.
        * intros Heq. apply Hinj in Heq. lia.
        * apply Hav. lia. }
  destruct e as [value | | key | task | task checked | f |]; cbn [handle].
  - by split.
  - exact Hcreate.
  - unfold createTaskOnEnterHandler. case_decide; [exact Hcreate | by split].
  - unfold deleteTaskHandler, deleteTask, distinctAndFresh. cbn [setTasks app tasks issued]. split.
    + eapply sublist_NoDup; [exact Hnd | apply ids_filter_sublist].
    + intros j Hj Hin. apply (Hav j Hj).
      eapply elem_of_sublist; [exact Hin | apply ids_filter_sublist].
  - unfold changeTaskStatusHandler, changeTaskStatus, distinctAndFresh.
    cbn [setTasks app tasks issued]. rewrite status_ids. by split.
  - by split.
  - unfold distinctAndFresh. cbn [render app issued]. split; [done |].
    intros j Hj. apply Hav. lia.
Qed.

(** X27. The identifiers of the task list are pairwise distinct after every
    sequence of events, renders included, as soon as the identifier source
    never returns an identifier twice: the three initial tasks take their
    identifiers from the same source as the tasks created later. *)
Theorem task_ids_stay_distinct (k : nat) (es : list Event) :
  Store.neverReissues v1 →
  NoDup (ids (tasks (app (run v1 es (mount v1 k))))).
Proof.
  intros Hinj.
  assert (Hrun : ∀ w, distinctAndFresh v1 w → distinctAndFresh v1 (run v1 es w)).
  { induction es as [|e es' IH]; intros w Hw; [done |].
    rewrite tasks_run_cons. apply IH. by apply tasks_handle_distinctAndFresh. }
  apply Hrun. by apply mount_distinctAndFresh.
Qed.

End Uuid.

Lemma created_task_is_active_witness :
  filteredTasks (app (createTaskHandler Sources.uuid
                        (changeTaskTitleHandler " Redux "
                           (changeFilter completed (mount Sources.uuid 0)))))
  = filteredTasks (app (changeFilter completed (mount Sources.uuid 0))).
Proof.
  rewrite (created_task_is_active Sources.uuid
             (changeTaskTitleHandler " Redux "
                (changeFilter completed (mount Sources.uuid 0)))).
  - reflexivity.
  - vm_compute. discriminate.
Defined.

Lemma task_ids_stay_distinct_witness :
  NoDup (ids (tasks (app (run Sources.uuid
           [ChangeTaskTitle "Redux"; KeyDown "Enter"; Render; ClickAdd;
            ChangeTaskTitle "RTK"; ClickAdd; Render;
            ChangeStatus {| id := "u'"; title := "JS"; isDone := true |} false]
           (mount Sources.uuid 0))))).
Proof.
  apply (task_ids_stay_distinct Sources.uuid 0). exact Scenarios.uuid_neverReissues.
Defined.

End TodolistFacts.
